(** * nomad-node-problem-detector: the aggregator's decision logic

    A shallow embedding of [aggregator/aggregator.go] and of the [types]
    package it uses.

    - Go strings are [string]; [==] on strings is decidable equality.
    - A Go slice is a [list]; the nil slice and the empty slice are both
      [[]] (the code only takes [len] of slices and ranges over them).
    - Go maps are stdpp [gmap]s.  The code never ranges over a map, so the
      iteration order of maps plays no role.
    - The outside world (Nomad's API, the detectors' HTTP servers, the
      SIGUSR1 signal) is an explicit input: each call made by the code
      takes the answer it gets as an argument, and every call is recorded
      as an [Event] of the output trace.  Request headers (content type,
      authorization) are not part of the trace, and the decoding of the
      JSON body is part of the world's answer.
    - The main loop and the signal handler run as two goroutines; they are
      interleaved step by step, and a read or a write of the [pause] flag
      is one atomic step.
    - A nil-pointer dereference is a Go run-time panic; nothing in the
      package recovers from panics, so a panic ends the process.  It is the
      [Panic] outcome. *)

From stdpp Require Import gmap strings list fin_maps.

Open Scope string_scope.
Open Scope list_scope.
Open Scope stdpp_scope.

#[local] Set Warnings "-clear-no-such-hyp".

(** ** Package [types] *)

Module types.

(** [type HealthCheck struct { Type, Result, Message string }];
    [Type] is a keyword of Rocq, hence [Type_]. *)
Record HealthCheck := mkHealthCheck {
  Type_ : string;
  Result : string;
  Message : string
}.

(** [type Config struct { Type, HealthCheck string }] *)
Record Config := mkConfig {
  cType : string;
  cHealthCheck : string
}.

End types.

Export types.

(** ** The world around the aggregator *)

(** A Go [error] value, reduced to its message. *)
Definition error := string.

(** [api.NodeListStub], the two fields the aggregator reads. *)
Record NodeListStub := mkNode {
  ID : string;
  Address : string
}.

(** [*http.Response]; only its presence and status are looked at. *)
Record Response := mkResponse {
  StatusCode : Z
}.

(** What the liveness probe of [isNpdServerActive] meets, in the order of
    the function's exits. *)
Inductive ProbeOutcome :=
| ProbeNewRequestErr (err : error)      (* http.NewRequest fails *)
| ProbeDoErr (err : error)              (* client.Do fails *)
| ProbeResponse (resp : Response).      (* client.Do succeeds *)

(** What the [/v1/nodehealth/] request of [aggregate] meets, in the order of
    the loop body's exits (lines 125-163).  [client.Do] returns a pair
    [(resp, err)]: with [err != nil] the response pointer is nil, except
    when the redirect policy fails, where it is non-nil with a closed body
    (net/http's contract for [Client.Do]). *)
Inductive FetchOutcome :=
| FetchNewRequestErr (err : error)
| FetchDoErr (resp : option Response) (err : error)
| FetchReadAllErr (err : error)
| FetchUnmarshalErr (err : error)
| FetchDecoded (current : list HealthCheck).

(** The answers one node gives during one visit. *)
Record NodeEnv := mkNodeEnv {
  probe : ProbeOutcome;
  fetch : FetchOutcome;
  toggleErr : option error     (* result of Nodes.ToggleEligibility *)
}.

(** The answers of the world during one step of the main loop. *)
Record World := mkWorld {
  listNodes : error + list NodeListStub;   (* nodeHandle.List *)
  nodeEnv : NodeListStub → NodeEnv
}.

Inductive Level := LInfo | LWarning.

(** The observable actions of the aggregator. *)
Inductive Event :=
| EvList                                         (* nodeHandle.List *)
| EvToggle (nodeID : string) (eligible : bool)   (* nodeHandle.ToggleEligibility *)
| EvPost (url : string)                          (* client.Do of a POST request *)
| EvSleep                                        (* time.Sleep(aggregationCycleTime) *)
| EvLog (lvl : Level) (msg : string).

(** Calls to the orchestrator and to the nodes, as opposed to logging and
    sleeping. *)
Definition isIO (e : Event) : bool :=
  match e with
  | EvList | EvToggle _ _ | EvPost _ => true
  | EvSleep | EvLog _ _ => false
  end.

Definition toggleOf (e : Event) : option (string * bool) :=
  match e with
  | EvToggle nodeID eligible => Some (nodeID, eligible)
  | _ => None
  end.

(** The toggle-eligibility calls of a trace, in order. *)
Definition toggleCalls (out : list Event) : list (string * bool) :=
  omap toggleOf out.

(** ** Package [aggregator] *)

Module aggregator.

(** The result of running a piece of the loop body: either control goes
    on with the history [hist], or the process panics. *)
Inductive Outcome :=
| Continue (hist : gmap string (list HealthCheck)) (out : list Event)
| Panic (out : list Event).

Definition events (o : Outcome) : list Event :=
  match o with
  | Continue _ out => out
  | Panic out => out
  end.

(** [toggleNodeEligibility], lines 215-220: the failure of the call is
    logged and nothing else. *)
Definition toggleNodeEligibility (err : option error)
    (nodeID nodeAddress : string) (eligible : bool) : list Event :=
  EvToggle nodeID eligible ::
  match err with
  | Some _ =>
      [EvLog LWarning ("Error in toggling node eligibility, skipping node "
                      +:+ nodeAddress +:+ "
")]
  | None => []
  end.

(** [isNpdServerActive], lines 223-247. *)
Definition isNpdServerActive (env : ProbeOutcome) (npdServer : string)
    : (bool * option error) * list Event :=
  let url := npdServer +:+ "/v1/health/" in
  match env with
  | ProbeNewRequestErr err => ((false, Some err), [])
  | ProbeDoErr err => ((false, Some err), [EvPost url])
  | ProbeResponse resp =>
      if bool_decide (StatusCode resp ≠ 200%Z)
      then ((false, None), [EvPost url])
      else ((true, None), [EvPost url])
  end.

(** Lines 170-173: the lookup from Type to the previous entry. *)
Definition buildPrevious (nodeHealth : list HealthCheck)
    : gmap string HealthCheck :=
  foldl (λ previous nh, <[Type_ nh := nh]> previous) ∅ nodeHealth.

(** The variables of the diff loop, and the warnings it has logged. *)
Record DiffState := mkDiff {
  nodeHealthy : bool;
  stateChanged : bool;
  logged : list Event
}.

(** Line 184: [curr.Result == "Unhealthy" || curr.Result == "true"]. *)
Definition isBad (result : string) : bool :=
  bool_decide (result = "Unhealthy") || bool_decide (result = "true").

(** The body of the loop of lines 178-198. *)
Definition diffStep (nodeAddress : string)
    (previous : gmap string HealthCheck)
    (st : DiffState) (curr : HealthCheck) : DiffState :=
  let st1 :=
    if isBad (Result curr)
    then {| nodeHealthy := false;
            stateChanged := stateChanged st;
            logged := logged st ++
              [EvLog LWarning ("Node " +:+ nodeAddress +:+ ": " +:+ Type_ curr
                              +:+ " is " +:+ Result curr +:+ "
")] |}
    else st in
  match previous !! Type_ curr with
  | Some prev =>
      if bool_decide (Result prev = Result curr)
      then st1
      else {| nodeHealthy := nodeHealthy st1;
              stateChanged := true;
              logged := logged st1 |}
  | None => st1
  end.

(** Lines 175-198. *)
Definition diff (nodeAddress : string)
    (previous : gmap string HealthCheck)
    (current : list HealthCheck) : DiffState :=
  foldl (diffStep nodeAddress previous)
        {| nodeHealthy := true; stateChanged := false; logged := [] |}
        current.

(** Lines 165-207: the decision once the snapshot [current] is decoded. *)
Definition decide_ (node : NodeListStub) (tErr : option error)
    (m : gmap string (list HealthCheck))
    (current : list HealthCheck) : Outcome :=
  let nodeHealth := default [] (m !! ID node) in
  let previous := buildPrevious nodeHealth in
  let d := diff (Address node) previous current in
  let toggled :=
    if bool_decide (size previous = 0) || stateChanged d
    then if nodeHealthy d
         then toggleNodeEligibility tErr (ID node) (Address node) true
         else toggleNodeEligibility tErr (ID node) (Address node) false
    else [] in
  Continue (<[ID node := current]> m) (logged d ++ toggled).

Definition skipLog (what : string) (nodeAddress : string) : Event :=
  EvLog LWarning (what +:+ ", skipping node " +:+ nodeAddress +:+ "
").

(** Lines 125-207: the snapshot request and what follows it. *)
Definition fetchAndDecide (detectorPort : string) (node : NodeListStub)
    (e : NodeEnv) (m : gmap string (list HealthCheck)) : Outcome :=
  let npdServer := "http://" +:+ Address node +:+ detectorPort in
  let url := npdServer +:+ "/v1/nodehealth/" in
  match fetch e with
  | FetchNewRequestErr _ =>
      Continue m
        [skipLog "Error in building /v1/nodehealth/ HTTP request"
                 (Address node)]
  | FetchDoErr resp _ =>
      let out :=
        [EvPost url;
         skipLog "Error in getting /v1/nodehealth/ HTTP response"
                 (Address node)] in
      (* line 144: resp.Body.Close() *)
      match resp with
      | None => Panic out
      | Some _ => Continue m out
      end
  | FetchReadAllErr _ =>
      Continue m
        [EvPost url;
         skipLog "Error in reading /v1/nodehealth/ HTTP response"
                 (Address node)]
  | FetchUnmarshalErr _ =>
      Continue m
        [EvPost url;
         skipLog "Error in unmarshalling /v1/nodehealth/ HTTP response body"
                 (Address node)]
  | FetchDecoded current =>
      match decide_ node (toggleErr e) m current with
      | Continue m' out => Continue m' (EvPost url :: out)
      | Panic out => Panic (EvPost url :: out)
      end
  end.

(** Lines 109-207: the body of [for _, node := range nodes]. *)
Definition processNode (detectorPort : string) (node : NodeListStub)
    (e : NodeEnv) (m : gmap string (list HealthCheck)) : Outcome :=
  let npdServer := "http://" +:+ Address node +:+ detectorPort in
  let '((npdActive, err), io) := isNpdServerActive (probe e) npdServer in
  match err with
  | Some _ =>
      Continue m
        (io ++ [EvLog LWarning ("Node " +:+ Address node
                               +:+ " is unreachable, skipping node.")])
  | None =>
      if negb npdActive
      then
        Continue m
          (io ++ [EvLog LWarning ("Node " +:+ Address node
                     +:+ " is unhealthy, marking it as ineligible.")]
              ++ toggleNodeEligibility (toggleErr e) (ID node)
                                       (Address node) false)
      else
        match fetchAndDecide detectorPort node e m with
        | Continue m' out => Continue m' (io ++ out)
        | Panic out => Panic (io ++ out)
        end
  end.

(** *** The main loop and the signal handler

    The program counter of the main goroutine, at the grain of one node
    visit: at the head of [for { ... }] (line 93), inside the range loop
    over the nodes still to visit (line 108), or dead after a panic. *)
Inductive PC :=
| LoopHead
| InCycle (rest : list NodeListStub)
| Crashed.

(** [pause] is the package variable of line 65, [m] the map of line 92. *)
Record State := mkState {
  pause : bool;
  m : gmap string (list HealthCheck);
  pc : PC
}.

(** The state at line 93 when the loop is first entered. *)
Definition initial : State :=
  {| pause := false; m := ∅; pc := LoopHead |}.

(** One step of the main goroutine. *)
Definition mainStep (detectorPort : string) (w : World) (s : State)
    : State * list Event :=
  match pc s with
  | LoopHead =>
      if pause s
      then (s, [])                                    (* lines 94-97 *)
      else
        let out := [EvLog LInfo "Collect and aggregate nodes health"; EvList] in
        match listNodes w with
        | inl err =>                                  (* lines 101-106 *)
            (s, out ++ [EvLog LWarning ("Error in listing nomad nodes: "
                                        +:+ err +:+ "
");
                        EvSleep])
        | inr nodes =>
            ({| pause := pause s; m := m s; pc := InCycle nodes |}, out)
        end
  | InCycle [] =>                                     (* line 209 *)
      ({| pause := pause s; m := m s; pc := LoopHead |}, [EvSleep])
  | InCycle (node :: rest) =>
      match processNode detectorPort node (nodeEnv w node) (m s) with
      | Continue m' out =>
          ({| pause := pause s; m := m'; pc := InCycle rest |}, out)
      | Panic out =>
          ({| pause := pause s; m := m s; pc := Crashed |}, out)
      end
  | Crashed => (s, [])
  end.

(** [flipPause], lines 250-262: the handling of one SIGUSR1. *)
Definition flipPause (s : State) : State * list Event :=
  let p := negb (pause s) in
  ({| pause := p; m := m s; pc := pc s |},
   [EvLog LInfo (if p
                then "Received signal SIGUSR1, pausing aggregator."
                else "Received signal SIGUSR1, unpausing aggregator.")]).

(** The two goroutines interleave: a step is either the delivery of a
    signal or a step of the main loop.  A dead process takes no step. *)
Inductive Action :=
| Signal
| Main (w : World).

Definition step (detectorPort : string) (a : Action) (s : State)
    : State * list Event :=
  match pc s, a with
  | Crashed, _ => (s, [])
  | _, Signal => flipPause s
  | _, Main w => mainStep detectorPort w s
  end.

Fixpoint run (detectorPort : string) (acts : list Action) (s : State)
    : State * list Event :=
  match acts with
  | [] => (s, [])
  | a :: acts' =>
      let '(s1, out1) := step detectorPort a s in
      let '(s2, out2) := run detectorPort acts' s1 in
      (s2, out1 ++ out2)
  end.

End aggregator.

Import aggregator.

(** ** Notions used in the statements *)

(** Does the entry [curr] set [stateChanged], given the lookup? *)
Definition changes (previous : gmap string HealthCheck)
    (curr : HealthCheck) : bool :=
  match previous !! Type_ curr with
  | Some prev => negb (bool_decide (Result prev = Result curr))
  | None => false
  end.

(** The last entry of Type [t] in a sequence. *)
Definition lastOfType (t : string) (nodeHealth : list HealthCheck)
    : option HealthCheck :=
  last (filter (λ p, Type_ p = t) nodeHealth).

(** ** Sample data: checks, nodes and worlds *)

Definition cpu_ok : HealthCheck :=
  mkHealthCheck "CPUUnderPressure" "false" "CPU usage 10%".
Definition mem_ok : HealthCheck :=
  mkHealthCheck "MemoryUnderPressure" "false" "60% memory available out of 100%".
Definition mem_bad : HealthCheck :=
  mkHealthCheck "MemoryUnderPressure" "true" "5% memory available out of 100%".
Definition disk_ok : HealthCheck :=
  mkHealthCheck "DiskUsageHigh" "false" "disk usage is 20%".
Definition docker_bad : HealthCheck :=
  mkHealthCheck "docker" "Unhealthy" "docker daemon is down".
Definition docker_ok : HealthCheck :=
  mkHealthCheck "docker" "Healthy" "docker daemon is up".

Definition node1 : NodeListStub := mkNode "node-1" "10.0.0.1".
Definition node2 : NodeListStub := mkNode "node-2" "10.0.0.2".

(** A live detector that answers with the snapshot [current]. *)
Definition answers (current : list HealthCheck) : NodeEnv :=
  {| probe := ProbeResponse (mkResponse 200);
     fetch := FetchDecoded current;
     toggleErr := None |}.

(** A detector that cannot be reached: [client.Do] fails. *)
Definition unreachable : NodeEnv :=
  {| probe := ProbeDoErr "dial tcp 10.0.0.1:8083: connect: connection refused";
     fetch := FetchDoErr None "dial tcp 10.0.0.1:8083: connect: connection refused";
     toggleErr := None |}.

(** A detector that answers the probe with a status other than 200. *)
Definition answers_status (status : Z) : NodeEnv :=
  {| probe := ProbeResponse (mkResponse status);
     fetch := FetchDecoded [];
     toggleErr := None |}.

(** A detector that answers the probe and then drops the connection: the
    snapshot request fails in [client.Do], which returns a nil response. *)
Definition drops_snapshot_request : NodeEnv :=
  {| probe := ProbeResponse (mkResponse 200);
     fetch := FetchDoErr None
       "Post http://10.0.0.1:8083/v1/nodehealth/: context deadline exceeded";
     toggleErr := None |}.

(** A cluster of two nodes; the first one drops the snapshot request. *)
Definition two_nodes : World :=
  {| listNodes := inr [node1; node2];
     nodeEnv := λ node,
       if bool_decide (ID node = "node-1")
       then drops_snapshot_request
       else answers [cpu_ok] |}.

(** A cluster of one node with a live detector. *)
Definition one_node : World :=
  {| listNodes := inr [node1]; nodeEnv := λ _, answers [cpu_ok] |}.



(** ** Notions used in the statements about visits and cycles *)

(** The two URLs a visit posts to (lines 224 and 125). *)
Definition healthURL (detectorPort : string) (node : NodeListStub) : string :=
  ("http://" +:+ Address node +:+ detectorPort) +:+ "/v1/health/".

Definition nodehealthURL (detectorPort : string) (node : NodeListStub)
    : string :=
  ("http://" +:+ Address node +:+ detectorPort) +:+ "/v1/nodehealth/".

Definition isPost (e : Event) : bool :=
  match e with
  | EvPost _ => true
  | _ => false
  end.

Definition isList (e : Event) : bool :=
  match e with
  | EvList => true
  | _ => false
  end.

Definition isSleep (e : Event) : bool :=
  match e with
  | EvSleep => true
  | _ => false
  end.

(** The calls of a trace to the orchestrator and to the nodes. *)
Definition ioOf (out : list Event) : list Event :=
  filter (λ ev, isIO ev = true) out.

Definition isMain (a : Action) : bool :=
  match a with
  | Main _ => true
  | Signal => false
  end.

Definition isSignal (a : Action) : bool :=
  match a with
  | Signal => true
  | Main _ => false
  end.

(** The IDs of the nodes that the worlds of [acts] list. *)
Definition listedIDs (acts : list Action) : gset string :=
  ⋃ ((λ a, match a with
           | Main w =>
               match listNodes w with
               | inr nodes => list_to_set (ID <$> nodes)
               | inl _ => ∅
               end
           | Signal => ∅
           end) <$> acts).

(** The IDs of the nodes that the cycle under way has still to visit. *)
Definition pendingIDs (s : State) : gset string :=
  match pc s with
  | InCycle nodes => list_to_set (ID <$> nodes)
  | _ => ∅
  end.

(** The environment [e] with another answer to the toggle call. *)
Definition withToggleErr (tErr : option error) (e : NodeEnv) : NodeEnv :=
  {| probe := probe e; fetch := fetch e; toggleErr := tErr |}.

(** The state [s] with another value of the flag. *)
Definition withPause (b : bool) (s : State) : State :=
  {| pause := b; m := m s; pc := pc s |}.

(** A world whose orchestrator cannot list the nodes. *)
Definition orchestrator_down : World :=
  {| listNodes := inl "Unexpected response code: 500";
     nodeEnv := λ _, answers [cpu_ok] |}.

(** A cluster of two nodes with live detectors. *)
Definition two_live_nodes : World :=
  {| listNodes := inr [node1; node2];
     nodeEnv := λ node,
       if bool_decide (ID node = "node-1")
       then answers [cpu_ok; mem_bad]
       else answers [cpu_ok] |}.

(** * Properties *)

(** ** The lookup built from the previous sequence *)

Section previous_lookup.

Implicit Types (nodeHealth : list HealthCheck) (t : string).

Lemma buildPrevious_snoc nodeHealth nh :
  buildPrevious (nodeHealth ++ [nh])
  = <[Type_ nh := nh]> (buildPrevious nodeHealth).
Proof. unfold buildPrevious. by rewrite foldl_app. Qed.

(** The lookup holds entries of the sequence, filed under their Type. *)
Lemma buildPrevious_Some nodeHealth t p :
  buildPrevious nodeHealth !! t = Some p → p ∈ nodeHealth ∧ Type_ p = t.
Proof.
  induction nodeHealth as [|nh l IH] using rev_ind; [done|].
  rewrite buildPrevious_snoc, lookup_insert.
  case_decide as Ht.
  - intros [= <-]. split; [set_solver | done].
  - intros [Hp <-]%IH. split; [set_solver | done].
Qed.

(** Every Type of the sequence is in the lookup. *)
Lemma buildPrevious_is_Some nodeHealth p :
  p ∈ nodeHealth → is_Some (buildPrevious nodeHealth !! Type_ p).
Proof.
  induction nodeHealth as [|nh l IH] using rev_ind; [set_solver|].
  rewrite buildPrevious_snoc, lookup_insert.
  intros Hp. case_decide; [by eexists|].
  apply IH. set_solver.
Qed.

Lemma buildPrevious_None nodeHealth t :
  buildPrevious nodeHealth !! t = None ↔ t ∉ Type_ <$> nodeHealth.
Proof.
  split.
  - intros Hn (p & -> & Hp)%list_elem_of_fmap.
    destruct (buildPrevious_is_Some _ _ Hp) as [q Hq]. congruence.
  - intros Hn. destruct (buildPrevious nodeHealth !! t) as [p|] eqn:E; [|done].
    apply buildPrevious_Some in E as [Hp <-].
    exfalso. apply Hn. apply list_elem_of_fmap. eauto.
Qed.

(** With one entry per Type the lookup returns that entry. *)
Lemma buildPrevious_NoDup nodeHealth p :
  NoDup (Type_ <$> nodeHealth) → p ∈ nodeHealth →
  buildPrevious nodeHealth !! Type_ p = Some p.
Proof.
  induction nodeHealth as [|nh l IH] using rev_ind; [set_solver|].
  rewrite fmap_app, buildPrevious_snoc, lookup_insert. simpl.
  intros [Hl [Hdisj _]]%NoDup_app Hp.
  apply elem_of_app in Hp as [Hp | ->%list_elem_of_singleton].
  - rewrite decide_False; [by apply IH|].
    intros Heq. apply (Hdisj (Type_ p)).
    + apply list_elem_of_fmap. eauto.
    + rewrite Heq. set_solver.
  - by rewrite decide_True.
Qed.

(** [len(previous) == 0] tests whether the stored sequence is empty. *)
Lemma buildPrevious_size_0 nodeHealth :
  size (buildPrevious nodeHealth) = 0 ↔ nodeHealth = [].
Proof.
  split; [|by intros ->].
  intros Hs%map_size_empty_inv.
  destruct nodeHealth as [|nh l]; [done|].
  assert (is_Some (buildPrevious (nh :: l) !! Type_ nh)) as [q Hq]
    by (apply buildPrevious_is_Some; set_solver).
  rewrite Hs, lookup_empty in Hq. done.
Qed.

End previous_lookup.

(** ** The diff loop *)

Section diff_loop.

Context (nodeAddress : string) (previous : gmap string HealthCheck).

Lemma diffStep_nodeHealthy st curr :
  nodeHealthy (diffStep nodeAddress previous st curr)
  = nodeHealthy st && negb (isBad (Result curr)).
Proof.
  unfold diffStep.
  destruct (isBad (Result curr)), (previous !! Type_ curr) as [prev|];
    try case_bool_decide; simpl; by rewrite ?andb_true_r, ?andb_false_r.
Qed.

Lemma diffStep_stateChanged st curr :
  stateChanged (diffStep nodeAddress previous st curr)
  = stateChanged st || changes previous curr.
Proof.
  unfold diffStep, changes.
  destruct (isBad (Result curr)), (previous !! Type_ curr) as [prev|];
    try case_bool_decide; simpl; by rewrite ?orb_true_r, ?orb_false_r.
Qed.

Lemma foldl_diffStep_nodeHealthy current st :
  nodeHealthy (foldl (diffStep nodeAddress previous) st current)
  = nodeHealthy st && forallb (λ c, negb (isBad (Result c))) current.
Proof.
  revert st. induction current as [|c l IH]; intros st; simpl.
  - by rewrite andb_true_r.
  - by rewrite IH, diffStep_nodeHealthy, andb_assoc.
Qed.

Lemma foldl_diffStep_stateChanged current st :
  stateChanged (foldl (diffStep nodeAddress previous) st current)
  = stateChanged st || existsb (changes previous) current.
Proof.
  revert st. induction current as [|c l IH]; intros st; simpl.
  - by rewrite orb_false_r.
  - by rewrite IH, diffStep_stateChanged, orb_assoc.
Qed.

Lemma diff_nodeHealthy current :
  nodeHealthy (diff nodeAddress previous current)
  = forallb (λ c, negb (isBad (Result c))) current.
Proof. unfold diff. by rewrite foldl_diffStep_nodeHealthy. Qed.

Lemma diff_stateChanged current :
  stateChanged (diff nodeAddress previous current)
  = existsb (changes previous) current.
Proof. unfold diff. by rewrite foldl_diffStep_stateChanged. Qed.

End diff_loop.

Lemma isBad_spec result :
  isBad result = true ↔ result = "Unhealthy" ∨ result = "true".
Proof.
  unfold isBad. rewrite orb_true_iff, !bool_decide_eq_true. done.
Qed.

Lemma changes_spec previous curr :
  changes previous curr = true
  ↔ ∃ prev, previous !! Type_ curr = Some prev ∧ Result prev ≠ Result curr.
Proof.
  unfold changes. destruct (previous !! Type_ curr) as [prev|].
  - rewrite negb_true_iff, bool_decide_eq_false. naive_solver.
  - naive_solver.
Qed.

Lemma existsb_elem_of {A} (f : A → bool) (l : list A) :
  existsb f l = true ↔ ∃ x, x ∈ l ∧ f x = true.
Proof.
  rewrite existsb_exists. setoid_rewrite list_elem_of_In. done.
Qed.

Lemma forallb_elem_of {A} (f : A → bool) (l : list A) :
  forallb f l = true ↔ ∀ x, x ∈ l → f x = true.
Proof.
  rewrite forallb_forall. setoid_rewrite list_elem_of_In. done.
Qed.

Lemma forallb_false_elem_of {A} (f : A → bool) (l : list A) :
  forallb f l = false ↔ ∃ x, x ∈ l ∧ f x = false.
Proof.
  induction l as [|a l IH]; simpl.
  - split; [done | intros (x & Hx & _); set_solver].
  - rewrite andb_false_iff, IH. split.
    + intros [Ha | (x & Hx & Hf)]; [exists a | exists x]; set_solver.
    + intros (x & [-> | Hx]%elem_of_cons & Hf); [by left | right; eauto].
Qed.

(** ** The lookup, read off the sequence *)

Lemma buildPrevious_lookup nodeHealth t :
  buildPrevious nodeHealth !! t = lastOfType t nodeHealth.
Proof.
  unfold lastOfType.
  induction nodeHealth as [|nh l IH] using rev_ind; [done|].
  rewrite buildPrevious_snoc, lookup_insert, filter_app, filter_cons, filter_nil.
  case_decide as Ht.
  - by rewrite last_snoc.
  - by rewrite app_nil_r.
Qed.

(** Entries of a Type other than [t'] do not matter to the lookup at [t']. *)
Lemma buildPrevious_drop_type nodeHealth t t' :
  t' ≠ t →
  buildPrevious (filter (λ p, Type_ p ≠ t) nodeHealth) !! t'
  = buildPrevious nodeHealth !! t'.
Proof.
  intros Hne. rewrite !buildPrevious_lookup. unfold lastOfType.
  rewrite list_filter_filter. f_equal.
  apply list_filter_iff. intros p. naive_solver.
Qed.

Lemma existsb_ext_elem_of {A} (f g : A → bool) (l : list A) :
  (∀ x, x ∈ l → f x = g x) → existsb f l = existsb g l.
Proof.
  induction l as [|a l IH]; [done|]. intros H. simpl.
  rewrite H, IH; [done | | set_solver]. intros x Hx. apply H. set_solver.
Qed.

Lemma forallb_Permutation {A} (f : A → bool) (l l' : list A) :
  l ≡ₚ l' → forallb f l = forallb f l'.
Proof.
  induction 1 as [|x l l' _ IH|x y l|l l' l'' _ IH1 _ IH2]; simpl.
  - done.
  - by rewrite IH.
  - destruct (f x), (f y); done.
  - by rewrite IH1.
Qed.

Lemma existsb_Permutation {A} (f : A → bool) (l l' : list A) :
  l ≡ₚ l' → existsb f l = existsb f l'.
Proof.
  induction 1 as [|x l l' _ IH|x y l|l l' l'' _ IH1 _ IH2]; simpl.
  - done.
  - by rewrite IH.
  - destruct (f x), (f y); done.
  - by rewrite IH1.
Qed.

(** ** The aggregate verdict *)

(** C2.  For every fetched current sequence the verdict is unhealthy exactly
    when some entry has Result "Unhealthy" or "true"; it is healthy exactly
    when every entry has another Result; and one bad entry anywhere in the
    sequence makes the verdict unhealthy whatever the entries around it
    are (and whatever the previous lookup holds). *)
Theorem verdict_unhealthy_iff_bad_entry
    (nodeAddress : string) (previous : gmap string HealthCheck)
    (current : list HealthCheck) :
  (nodeHealthy (diff nodeAddress previous current) = false
   ↔ ∃ c, c ∈ current ∧ (Result c = "Unhealthy" ∨ Result c = "true"))
  ∧ (nodeHealthy (diff nodeAddress previous current) = true
     ↔ ∀ c, c ∈ current → Result c ≠ "Unhealthy" ∧ Result c ≠ "true")
  ∧ (∀ c before after,
       Result c = "Unhealthy" ∨ Result c = "true" →
       nodeHealthy (diff nodeAddress previous (before ++ c :: after)) = false).
Proof.
  split; [|split].
  - rewrite diff_nodeHealthy, forallb_false_elem_of.
    setoid_rewrite negb_false_iff. setoid_rewrite isBad_spec. done.
  - rewrite diff_nodeHealthy, forallb_elem_of.
    split; intros H c Hc; specialize (H c Hc).
    + apply negb_true_iff in H.
      split; intros Heq; (assert (isBad (Result c) = true) as Hb
        by (apply isBad_spec; auto)); congruence.
    + apply negb_true_iff. destruct (isBad (Result c)) eqn:E; [|done].
      apply isBad_spec in E. naive_solver.
  - intros c before after Hc.
    rewrite diff_nodeHealthy, forallb_false_elem_of.
    exists c. split; [set_solver|].
    apply negb_false_iff, isBad_spec, Hc.
Qed.

(** One bad script check between two good resource checks. *)
Lemma verdict_unhealthy_iff_bad_entry_witness :
  nodeHealthy (diff "10.0.0.1" ∅ ([cpu_ok] ++ docker_bad :: [disk_ok])) = false.
Proof.
  apply (verdict_unhealthy_iff_bad_entry "10.0.0.1" ∅ []).
  left. reflexivity.
Defined.

Example verdict_all_good :
  nodeHealthy (diff "10.0.0.1" ∅ [cpu_ok; docker_ok; disk_ok]) = true.
Proof. reflexivity. Qed.

(** Only the two literal strings count: "unhealthy" and "True" are healthy. *)
Example verdict_is_case_sensitive :
  nodeHealthy (diff "10.0.0.1" ∅
    [mkHealthCheck "a" "unhealthy" ""; mkHealthCheck "b" "True" ""]) = true.
Proof. reflexivity. Qed.

(** ** The state-changed flag *)

(** The flag in terms of the lookup the loop consults. *)
Lemma stateChanged_iff_lookup nodeAddress previous (current : list HealthCheck) :
  stateChanged (diff nodeAddress previous current) = true
  ↔ ∃ c prev, c ∈ current ∧ previous !! Type_ c = Some prev
              ∧ Result prev ≠ Result c.
Proof.
  rewrite diff_stateChanged, existsb_elem_of.
  setoid_rewrite changes_spec. naive_solver.
Qed.

(** C3, as stated, fails when the previous sequence holds two entries of one
    Type: the lookup keeps the last one only.  Here the Type of the current
    entry is present in the previous sequence with the differing Result
    "true", and the flag stays false. *)
Lemma stateChanged_ignores_shadowed_entry :
  ¬ (stateChanged (diff "10.0.0.1" (buildPrevious [mem_bad; mem_ok]) [mem_ok])
     = true
     ↔ ∃ c p, c ∈ [mem_ok] ∧ p ∈ [mem_bad; mem_ok]
              ∧ Type_ p = Type_ c ∧ Result p ≠ Result c).
Proof.
  intros [_ H].
  assert (stateChanged (diff "10.0.0.1" (buildPrevious [mem_bad; mem_ok])
                             [mem_ok]) = false) as Hf
    by (vm_compute; reflexivity).
  rewrite H in Hf; [done|].
  exists mem_ok, mem_bad.
  repeat split; [set_solver | set_solver | done].
Qed.

(** C3, amended.  The flag is true exactly when some current entry has a
    Type whose last entry in the previous sequence has a differing Result;
    when the previous sequence has one entry per Type, that is: when some
    current entry has a Type present in the previous sequence with a
    differing Result; and an entry whose Type does not appear in the
    previous sequence does not set the flag: the flag is what it is without
    that entry. *)
Theorem stateChanged_iff_last_previous_differs
    (nodeAddress : string) (nodeHealth current : list HealthCheck) :
  (stateChanged (diff nodeAddress (buildPrevious nodeHealth) current) = true
   ↔ ∃ c p, c ∈ current ∧ lastOfType (Type_ c) nodeHealth = Some p
            ∧ Result p ≠ Result c)
  ∧ (NoDup (Type_ <$> nodeHealth) →
     (stateChanged (diff nodeAddress (buildPrevious nodeHealth) current) = true
      ↔ ∃ c p, c ∈ current ∧ p ∈ nodeHealth
               ∧ Type_ p = Type_ c ∧ Result p ≠ Result c))
  ∧ (∀ c before after,
       current = before ++ c :: after →
       Type_ c ∉ Type_ <$> nodeHealth →
       stateChanged (diff nodeAddress (buildPrevious nodeHealth) current)
       = stateChanged (diff nodeAddress (buildPrevious nodeHealth)
                            (before ++ after))).
Proof.
  split; [|split].
  - rewrite stateChanged_iff_lookup.
    setoid_rewrite buildPrevious_lookup. done.
  - intros Hnd. rewrite stateChanged_iff_lookup. split.
    + intros (c & p & Hc & Hl & Hr).
      apply buildPrevious_Some in Hl as [Hp Ht]. eauto 10.
    + intros (c & p & Hc & Hp & Ht & Hr).
      exists c, p. split; [done|]. split; [|done].
      rewrite <- Ht. by apply buildPrevious_NoDup.
  - intros c before after -> Hc.
    rewrite !diff_stateChanged, !existsb_app. simpl.
    apply buildPrevious_None in Hc.
    unfold changes at 2. by rewrite Hc.
Qed.

(** Scenario 2 of the specification, and a new Type next to a stable one. *)
Lemma stateChanged_iff_last_previous_differs_witness :
  stateChanged (diff "10.0.0.1" (buildPrevious [mem_ok]) [mem_bad]) = true
  ∧ stateChanged (diff "10.0.0.1" (buildPrevious [mem_ok]) [cpu_ok; mem_ok])
    = stateChanged (diff "10.0.0.1" (buildPrevious [mem_ok]) ([] ++ [mem_ok])).
Proof.
  split.
  - apply (stateChanged_iff_last_previous_differs "10.0.0.1" [mem_ok] [mem_bad]).
    + apply NoDup_singleton.
    + exists mem_bad, mem_ok. repeat split; [set_solver | set_solver | done].
  - apply (proj2 (proj2 (stateChanged_iff_last_previous_differs "10.0.0.1"
             [mem_ok] [cpu_ok; mem_ok])) cpu_ok [] [mem_ok]).
    + reflexivity.
    + simpl. intros [= ]%list_elem_of_singleton.
Defined.

(** ** Determinism and order *)

(** C8.  The pair (nodeHealthy, stateChanged) is a function of the pair
    (previous, current) alone: running the diff again, for whatever node
    address, gives the same pair.  The verdict depends on the current
    sequence only, and not on the order of its entries: it is the same for
    every permutation of it (and every previous sequence). *)
Theorem diff_is_a_function_and_verdict_is_order_free
    (nodeAddress nodeAddress' : string)
    (nodeHealth nodeHealth' current current' : list HealthCheck) :
  current ≡ₚ current' →
  (nodeHealthy (diff nodeAddress (buildPrevious nodeHealth) current),
   stateChanged (diff nodeAddress (buildPrevious nodeHealth) current))
  = (nodeHealthy (diff nodeAddress' (buildPrevious nodeHealth) current),
     stateChanged (diff nodeAddress' (buildPrevious nodeHealth) current))
  ∧ nodeHealthy (diff nodeAddress (buildPrevious nodeHealth) current)
    = nodeHealthy (diff nodeAddress' (buildPrevious nodeHealth') current').
Proof.
  intros Hp. rewrite !diff_nodeHealthy, !diff_stateChanged.
  split; [done|]. by apply forallb_Permutation.
Qed.

Lemma diff_is_a_function_and_verdict_is_order_free_witness :
  nodeHealthy (diff "10.0.0.1" (buildPrevious [mem_ok]) [cpu_ok; mem_bad; disk_ok])
  = nodeHealthy (diff "10.0.0.2" (buildPrevious []) [disk_ok; cpu_ok; mem_bad]).
Proof.
  apply (diff_is_a_function_and_verdict_is_order_free
           "10.0.0.1" "10.0.0.2" [mem_ok] []
           [cpu_ok; mem_bad; disk_ok] [disk_ok; cpu_ok; mem_bad]).
  change [disk_ok; cpu_ok; mem_bad] with ([disk_ok] ++ [cpu_ok; mem_bad]).
  change [cpu_ok; mem_bad; disk_ok] with ([cpu_ok; mem_bad] ++ [disk_ok]).
  apply Permutation_app_comm.
Defined.

(** The flag, too, does not depend on the order of the current sequence. *)
Lemma stateChanged_Permutation nodeAddress previous
    (current current' : list HealthCheck) :
  current ≡ₚ current' →
  stateChanged (diff nodeAddress previous current)
  = stateChanged (diff nodeAddress previous current').
Proof. intros Hp. rewrite !diff_stateChanged. by apply existsb_Permutation. Qed.

(** It does depend on the order of a previous sequence that repeats a Type. *)
Example stateChanged_previous_order :
  stateChanged (diff "10.0.0.1" (buildPrevious [mem_ok; mem_bad]) [mem_ok]) = true
  ∧ stateChanged (diff "10.0.0.1" (buildPrevious [mem_bad; mem_ok]) [mem_ok]) = false.
Proof. split; vm_compute; reflexivity. Qed.

(** ** One visit of a node *)

Lemma toggleCalls_app out1 out2 :
  toggleCalls (out1 ++ out2) = toggleCalls out1 ++ toggleCalls out2.
Proof. unfold toggleCalls. apply omap_app. Qed.

Lemma toggleCalls_toggleNodeEligibility err nodeID nodeAddress eligible :
  toggleCalls (toggleNodeEligibility err nodeID nodeAddress eligible)
  = [(nodeID, eligible)].
Proof. by destruct err. Qed.

(** The diff loop only logs. *)
Lemma toggleCalls_logged nodeAddress previous (current : list HealthCheck) :
  toggleCalls (logged (diff nodeAddress previous current)) = [].
Proof.
  unfold diff.
  assert (∀ st, toggleCalls (logged st) = [] →
    toggleCalls (logged (foldl (diffStep nodeAddress previous) st current)) = [])
    as H; [|by apply H].
  induction current as [|c l IH]; intros st Hst; [done|].
  simpl. apply IH. unfold diffStep.
  destruct (isBad (Result c)), (previous !! Type_ c) as [prev|];
    try case_bool_decide; simpl; rewrite ?toggleCalls_app, ?Hst; done.
Qed.

(** The toggle-eligibility calls of the decision of lines 200-206. *)
Lemma decide_spec node tErr (m : gmap string (list HealthCheck)) current :
  let nodeHealth := default [] (m !! ID node) in
  let d := diff (Address node) (buildPrevious nodeHealth) current in
  ∃ out,
    decide_ node tErr m current = Continue (<[ID node := current]> m) out
    ∧ toggleCalls out
      = if bool_decide (nodeHealth = []) || stateChanged d
        then [(ID node, nodeHealthy d)] else [].
Proof.
  intros nodeHealth d. unfold decide_. fold nodeHealth. fold d.
  eexists. split; [reflexivity|].
  rewrite toggleCalls_app. subst d. rewrite toggleCalls_logged. simpl.
  set (d := diff (Address node) (buildPrevious nodeHealth) current).
  rewrite (bool_decide_ext _ (nodeHealth = [])) by apply buildPrevious_size_0.
  destruct (bool_decide (nodeHealth = []) || stateChanged d); [|done].
  destruct (nodeHealthy d); apply toggleCalls_toggleNodeEligibility.
Qed.

(** A visit whose probe answers 200 and whose snapshot decodes. *)
Lemma processNode_decoded detectorPort node e
    (m : gmap string (list HealthCheck)) resp current :
  probe e = ProbeResponse resp → StatusCode resp = 200%Z →
  fetch e = FetchDecoded current →
  let nodeHealth := default [] (m !! ID node) in
  let d := diff (Address node) (buildPrevious nodeHealth) current in
  ∃ out,
    processNode detectorPort node e m = Continue (<[ID node := current]> m) out
    ∧ toggleCalls out
      = if bool_decide (nodeHealth = []) || stateChanged d
        then [(ID node, nodeHealthy d)] else [].
Proof.
  intros Hp Hs Hf nodeHealth d.
  destruct (decide_spec node (toggleErr e) m current) as (out & Hd & Ht).
  unfold processNode, isNpdServerActive, fetchAndDecide.
  rewrite Hp, Hf, Hs, Hd. simpl.
  eexists. split; [reflexivity|]. exact Ht.
Qed.

(** ** The toggle policy of a successful visit *)

(** C1.  When the liveness probe answers 200 and the snapshot is fetched
    and decoded, the visit goes on to the next node; it issues one
    toggle-eligibility call if the stored history of the node is empty or
    the diff reports a state change, and none otherwise; the call asks for
    eligible exactly when the verdict is healthy; and in both cases the
    stored history of the node becomes the current sequence. *)
Theorem successful_visit_toggle_policy
    (detectorPort : string) (node : NodeListStub) (e : NodeEnv)
    (m : gmap string (list HealthCheck)) (resp : Response)
    (current : list HealthCheck) :
  probe e = ProbeResponse resp → StatusCode resp = 200%Z →
  fetch e = FetchDecoded current →
  let nodeHealth := default [] (m !! ID node) in
  let d := diff (Address node) (buildPrevious nodeHealth) current in
  ∃ m' out,
    processNode detectorPort node e m = Continue m' out
    ∧ (toggleCalls out ≠ [] ↔ nodeHealth = [] ∨ stateChanged d = true)
    ∧ (∀ call, call ∈ toggleCalls out →
         toggleCalls out = [call] ∧ call = (ID node, nodeHealthy d))
    ∧ m' !! ID node = Some current
    ∧ (∀ other, other ≠ ID node → m' !! other = m !! other).
Proof.
  intros Hp Hs Hf nodeHealth d.
  destruct (processNode_decoded detectorPort node e m resp current Hp Hs Hf)
    as (out & -> & Ht).
  fold nodeHealth in Ht. fold d in Ht.
  exists (<[ID node := current]> m), out. split; [done|].
  rewrite Ht. repeat split.
  - intros Hne. destruct (bool_decide (nodeHealth = [])) eqn:E1.
    + left. by apply bool_decide_eq_true in E1.
    + right. by destruct (stateChanged d).
  - intros [-> | ->]; [by rewrite bool_decide_eq_true_2 | by rewrite orb_true_r].
  - destruct (_ || _); set_solver.
  - destruct (_ || _); set_solver.
  - apply lookup_insert_eq.
  - intros other Ho. by apply lookup_insert_ne.
Qed.

(** Scenario 1 of the specification: nothing stored, one good check. *)
Lemma successful_visit_toggle_policy_witness :
  ∃ m' out,
    processNode ":8083" node1 (answers [cpu_ok]) ∅ = Continue m' out
    ∧ toggleCalls out ≠ []
    ∧ (∀ call, call ∈ toggleCalls out → call = ("node-1", true))
    ∧ m' !! "node-1" = Some [cpu_ok].
Proof.
  destruct (successful_visit_toggle_policy ":8083" node1 (answers [cpu_ok]) ∅
              (mkResponse 200) [cpu_ok] eq_refl eq_refl eq_refl)
    as (m' & out & Hrun & Hiff & Hcall & Hm & _).
  exists m', out. repeat split.
  - exact Hrun.
  - apply Hiff. left. reflexivity.
  - intros call Hc. apply (Hcall call Hc).
  - exact Hm.
Defined.

Example scenario_1 :
  toggleCalls (events (processNode ":8083" node1 (answers [cpu_ok]) ∅))
  = [("node-1", true)].
Proof. vm_compute. reflexivity. Qed.

Example scenario_2 :
  toggleCalls (events (processNode ":8083" node1 (answers [mem_bad])
                         {[ "node-1" := [mem_ok] ]}))
  = [("node-1", false)].
Proof. vm_compute. reflexivity. Qed.

Example scenario_3 :
  toggleCalls (events (processNode ":8083" node1 (answers [disk_ok])
                         {[ "node-1" := [disk_ok] ]}))
  = [].
Proof. vm_compute. reflexivity. Qed.

(** ** Stable results *)

(** Results that agree with the previous sequence leave the flag down. *)
Lemma stable_results_stateChanged nodeAddress (nodeHealth current : list HealthCheck) :
  (∀ c p, c ∈ current → p ∈ nodeHealth →
          Type_ p = Type_ c → Result p = Result c) →
  stateChanged (diff nodeAddress (buildPrevious nodeHealth) current) = false.
Proof.
  intros Hsame. apply not_true_is_false.
  intros (c & p & Hc & Hl & Hr)%stateChanged_iff_lookup.
  apply buildPrevious_Some in Hl as [Hp Ht]. apply Hr. by apply Hsame.
Qed.

(** C6, as stated, fails where it says "including the case where both the
    previous and the current sequences are empty": a node whose detector
    answers with the empty list is toggled eligible at every visit.  The
    first visit stores the empty sequence, the second one meets it. *)
Lemma empty_history_is_toggled_again :
  ∃ m1 out1 m2 out2,
    processNode ":8083" node1 (answers []) ∅ = Continue m1 out1
    ∧ m1 !! ID node1 = Some []
    ∧ processNode ":8083" node1 (answers []) m1 = Continue m2 out2
    ∧ (∀ c p : HealthCheck, c ∈ [] → p ∈ default [] (m1 !! ID node1) →
         Type_ p = Type_ c → Result p = Result c)
    ∧ toggleCalls out2 = [("node-1", true)].
Proof.
  do 4 eexists. split; [vm_compute; reflexivity|].
  split; [vm_compute; reflexivity|].
  split; [vm_compute; reflexivity|].
  split; [|vm_compute; reflexivity].
  intros c p Hc. by apply elem_of_nil in Hc.
Qed.

(** C6, amended.  When the stored previous sequence of the node is not
    empty and every check of the current sequence has the Result that the
    previous sequence has for the same Type, a successful visit issues no
    toggle-eligibility call. *)
Theorem stable_results_no_toggle
    (detectorPort : string) (node : NodeListStub) (e : NodeEnv)
    (m : gmap string (list HealthCheck)) (resp : Response)
    (current : list HealthCheck) :
  probe e = ProbeResponse resp → StatusCode resp = 200%Z →
  fetch e = FetchDecoded current →
  default [] (m !! ID node) ≠ [] →
  (∀ c p, c ∈ current → p ∈ default [] (m !! ID node) →
          Type_ p = Type_ c → Result p = Result c) →
  ∃ out,
    processNode detectorPort node e m = Continue (<[ID node := current]> m) out
    ∧ toggleCalls out = [].
Proof.
  intros Hp Hs Hf Hne Hsame.
  destruct (processNode_decoded detectorPort node e m resp current Hp Hs Hf)
    as (out & Hrun & Ht).
  exists out. split; [done|].
  rewrite Ht, stable_results_stateChanged by done.
  by rewrite bool_decide_eq_false_2.
Qed.

(** Scenario 3 of the specification. *)
Lemma stable_results_no_toggle_witness :
  ∃ out,
    processNode ":8083" node1 (answers [disk_ok]) {[ "node-1" := [disk_ok] ]}
    = Continue (<["node-1" := [disk_ok]]> {[ "node-1" := [disk_ok] ]}) out
    ∧ toggleCalls out = [].
Proof.
  apply (stable_results_no_toggle ":8083" node1 (answers [disk_ok])
           {[ "node-1" := [disk_ok] ]} (mkResponse 200) [disk_ok]).
  - reflexivity.
  - reflexivity.
  - reflexivity.
  - vm_compute. discriminate.
  - intros c p ->%list_elem_of_singleton Hp _.
    vm_compute in Hp. by apply list_elem_of_singleton in Hp as ->.
Defined.

(** ** A Type that left the snapshot *)

(** C10.  A Type that no entry of the current snapshot has does not set
    the flag and does not touch the verdict: both are what they are with
    the entries of that Type removed from the stored history.  After a
    successful visit the stored history is the current sequence, so no
    entry of that Type is stored any more. *)
Theorem absent_type_is_inert_and_dropped
    (detectorPort : string) (node : NodeListStub) (e : NodeEnv)
    (m : gmap string (list HealthCheck)) (resp : Response)
    (current : list HealthCheck) (t : string) :
  probe e = ProbeResponse resp → StatusCode resp = 200%Z →
  fetch e = FetchDecoded current →
  t ∈ Type_ <$> default [] (m !! ID node) →
  t ∉ Type_ <$> current →
  let nodeHealth := default [] (m !! ID node) in
  let without := filter (λ p, Type_ p ≠ t) nodeHealth in
  stateChanged (diff (Address node) (buildPrevious nodeHealth) current)
  = stateChanged (diff (Address node) (buildPrevious without) current)
  ∧ nodeHealthy (diff (Address node) (buildPrevious nodeHealth) current)
    = nodeHealthy (diff (Address node) (buildPrevious without) current)
  ∧ ∃ m' out,
      processNode detectorPort node e m = Continue m' out
      ∧ m' !! ID node = Some current
      ∧ t ∉ Type_ <$> default [] (m' !! ID node).
Proof.
  intros Hp Hs Hf _ Ht nodeHealth without. split; [|split].
  - rewrite !diff_stateChanged. apply existsb_ext_elem_of.
    intros c Hc. unfold changes. subst without.
    rewrite buildPrevious_drop_type; [done|].
    intros Heq. apply Ht. apply list_elem_of_fmap. eauto.
  - by rewrite !diff_nodeHealthy.
  - destruct (processNode_decoded detectorPort node e m resp current Hp Hs Hf)
      as (out & Hrun & _).
    exists (<[ID node := current]> m), out.
    rewrite lookup_insert_eq. done.
Qed.

(** The script check "docker" reported last time and is gone now. *)
Lemma absent_type_is_inert_and_dropped_witness :
  ∃ m' out,
    processNode ":8083" node1 (answers [cpu_ok])
                {[ "node-1" := [cpu_ok; docker_bad] ]} = Continue m' out
    ∧ m' !! "node-1" = Some [cpu_ok]
    ∧ "docker" ∉ Type_ <$> default [] (m' !! "node-1").
Proof.
  apply (absent_type_is_inert_and_dropped ":8083" node1 (answers [cpu_ok])
           {[ "node-1" := [cpu_ok; docker_bad] ]} (mkResponse 200)
           [cpu_ok] "docker").
  - reflexivity.
  - reflexivity.
  - reflexivity.
  - vm_compute. apply list_elem_of_further, list_elem_of_here.
  - simpl. intros [= ]%list_elem_of_singleton.
Defined.

(** ** A failing liveness probe *)

(** C4, as stated, fails for a probe that errors: lines 112-116 log that
    the node is unreachable and go on to the next node, and no
    toggle-eligibility call is made. *)
Lemma unreachable_node_is_not_toggled :
  ¬ (∃ m' out,
       processNode ":8083" node1 unreachable {[ "node-1" := [cpu_ok] ]}
       = Continue m' out
       ∧ ("node-1", false) ∈ toggleCalls out).
Proof.
  intros (m' & out & Hrun & Hin).
  vm_compute in Hrun. injection Hrun as <- <-.
  vm_compute in Hin. by apply elem_of_nil in Hin.
Qed.

(** C4, amended.  When the liveness probe gets a response whose status is
    not 200, the visit issues one toggle-ineligible call for the node, does
    not request the snapshot, and leaves the stored history as it is.  When
    the probe fails with an error, the visit issues no toggle-eligibility
    call, does not request the snapshot, and leaves the stored history as
    it is.  In both cases the loop goes on to the next node. *)
Theorem failed_probe_policy
    (detectorPort : string) (node : NodeListStub) (e : NodeEnv)
    (m : gmap string (list HealthCheck)) :
  let health :=
    ("http://" +:+ Address node +:+ detectorPort) +:+ "/v1/health/" in
  (∀ resp, probe e = ProbeResponse resp → StatusCode resp ≠ 200%Z →
     ∃ out,
       processNode detectorPort node e m = Continue m out
       ∧ toggleCalls out = [(ID node, false)]
       ∧ filter (λ ev, isIO ev = true) out
         = [EvPost health; EvToggle (ID node) false])
  ∧ (∀ err, probe e = ProbeNewRequestErr err ∨ probe e = ProbeDoErr err →
     ∃ out,
       processNode detectorPort node e m = Continue m out
       ∧ toggleCalls out = []
       ∧ (filter (λ ev, isIO ev = true) out = [EvPost health]
          ∨ filter (λ ev, isIO ev = true) out = [])).
Proof.
  intros health. split.
  - intros resp Hp Hs. unfold processNode, isNpdServerActive.
    rewrite Hp, bool_decide_eq_true_2 by done. simpl.
    eexists. split; [reflexivity|].
    destruct (toggleErr e); split; reflexivity.
  - intros err [Hp | Hp]; unfold processNode, isNpdServerActive;
      rewrite Hp; simpl; eexists; (split; [reflexivity|]);
      (split; [reflexivity|]).
    + by right.
    + by left.
Qed.

(** Scenario 4 of the specification: the probe answers 503. *)
Lemma failed_probe_policy_witness :
  ∃ out,
    processNode ":8083" node1 (answers_status 503) {[ "node-1" := [cpu_ok] ]}
    = Continue {[ "node-1" := [cpu_ok] ]} out
    ∧ toggleCalls out = [("node-1", false)]
    ∧ filter (λ ev, isIO ev = true) out
      = [EvPost "http://10.0.0.1:8083/v1/health/"; EvToggle "node-1" false].
Proof.
  apply (proj1 (failed_probe_policy ":8083" node1 (answers_status 503)
                  {[ "node-1" := [cpu_ok] ]}) (mkResponse 503)).
  - reflexivity.
  - simpl. lia.
Defined.

(** What the retained history entails: a node that was healthy, answered
    one probe with 503 and answers again as before is toggled ineligible at
    the second visit and is not toggled back at the third. *)
Example recovered_node_is_not_toggled_back :
  ∃ m1 out1 m2 out2 m3 out3,
    processNode ":8083" node1 (answers [cpu_ok]) ∅ = Continue m1 out1
    ∧ processNode ":8083" node1 (answers_status 503) m1 = Continue m2 out2
    ∧ processNode ":8083" node1 (answers [cpu_ok]) m2 = Continue m3 out3
    ∧ toggleCalls out1 = [("node-1", true)]
    ∧ toggleCalls out2 = [("node-1", false)]
    ∧ toggleCalls out3 = [].
Proof.
  do 6 eexists. repeat split; vm_compute; reflexivity.
Qed.

(** ** A failing snapshot request *)

(** The failures after which lines 125-163 do go on to the next node: the
    request cannot be built, [client.Do] fails and returns a response, the
    body cannot be read, the body does not decode.  No toggle-eligibility
    call is made and the stored history stays. *)
Lemma failed_snapshot_is_skipped detectorPort node e
    (m : gmap string (list HealthCheck)) resp :
  probe e = ProbeResponse resp → StatusCode resp = 200%Z →
  (∃ err, fetch e = FetchNewRequestErr err)
  ∨ (∃ r err, fetch e = FetchDoErr (Some r) err)
  ∨ (∃ err, fetch e = FetchReadAllErr err)
  ∨ (∃ err, fetch e = FetchUnmarshalErr err) →
  ∃ out, processNode detectorPort node e m = Continue m out
         ∧ toggleCalls out = [].
Proof.
  intros Hp Hs Hf. unfold processNode, isNpdServerActive, fetchAndDecide.
  rewrite Hp, Hs. simpl.
  destruct Hf as [[err ->] | [(r & err & ->) | [[err ->] | [err ->]]]];
    eexists; split; reflexivity.
Qed.

(** C7 at a network error of the snapshot request: line 144 closes the body
    of the nil response, and the visit ends in a panic instead of going on
    to the next node. *)
Theorem failed_snapshot_request_panics :
  processNode ":8083" node1 drops_snapshot_request {[ "node-1" := [cpu_ok] ]}
  = Panic
      [EvPost "http://10.0.0.1:8083/v1/health/";
       EvPost "http://10.0.0.1:8083/v1/nodehealth/";
       EvLog LWarning
         "Error in getting /v1/nodehealth/ HTTP response, skipping node 10.0.0.1
"].
Proof. vm_compute. reflexivity. Qed.

(** ** Errors and the life of the process *)

Lemma run_Crashed detectorPort acts s :
  pc s = Crashed → run detectorPort acts s = (s, []).
Proof.
  intros Hc. induction acts as [|a acts IH]; [done|].
  simpl. unfold step. rewrite Hc, IH. by destruct a.
Qed.

Lemma run_app detectorPort acts1 acts2 s :
  run detectorPort (acts1 ++ acts2) s
  = let '(s1, out1) := run detectorPort acts1 s in
    let '(s2, out2) := run detectorPort acts2 s1 in
    (s2, out1 ++ out2).
Proof.
  revert s. induction acts1 as [|a acts1 IH]; intros s; simpl.
  - by destruct (run detectorPort acts2 s).
  - destruct (step detectorPort a s) as [s1 out1]. rewrite IH.
    destruct (run detectorPort acts1 s1) as [s2 out2].
    destruct (run detectorPort acts2 s2) as [s3 out3].
    by rewrite app_assoc.
Qed.

(** A visit panics in one case only. *)
Lemma processNode_Panic detectorPort node e
    (m : gmap string (list HealthCheck)) out :
  processNode detectorPort node e m = Panic out →
  ∃ resp err, probe e = ProbeResponse resp ∧ StatusCode resp = 200%Z
              ∧ fetch e = FetchDoErr None err.
Proof.
  unfold processNode, isNpdServerActive, fetchAndDecide.
  destruct (probe e) as [err|err|resp]; simpl; [done|done|].
  case_bool_decide as Hs; simpl; [done|].
  destruct (fetch e) as [err|[r|] err|err|err|current]; simpl; try done.
  intros _. eauto.
Qed.

(** Every other error leaves the process alive: a failing node list brings
    the loop back to its head, and a visit that does not meet the nil
    response goes on to the rest of the nodes. *)
Lemma mainStep_Crashed detectorPort w s :
  pc s ≠ Crashed → pc (fst (mainStep detectorPort w s)) = Crashed →
  ∃ node rest resp err,
    pc s = InCycle (node :: rest)
    ∧ probe (nodeEnv w node) = ProbeResponse resp ∧ StatusCode resp = 200%Z
    ∧ fetch (nodeEnv w node) = FetchDoErr None err.
Proof.
  intros Hlive. unfold mainStep.
  destruct (pc s) as [|[|node rest]|] eqn:Hpc; [| | |done].
  - destruct (pause s); simpl; [by rewrite Hpc|].
    destruct (listNodes w); simpl; [by rewrite Hpc | done].
  - done.
  - destruct (processNode _ _ _ _) as [m' out|out] eqn:Hn; [done|].
    intros _. apply processNode_Panic in Hn as (resp & err & ? & ? & ?).
    eauto 10.
Qed.

Lemma mainStep_list_error detectorPort w s err :
  pc s = LoopHead → pause s = false → listNodes w = inl err →
  fst (mainStep detectorPort w s) = s.
Proof. intros Hpc Hp Hl. unfold mainStep. by rewrite Hpc, Hp, Hl. Qed.

(** C5 at a network error of the snapshot request: the panic of line 144
    ends the process during the visit of the first node.  The second node
    is not visited, and whatever is delivered afterwards (further steps of
    the loop, signals) finds the process dead. *)
Theorem snapshot_network_error_ends_the_process (acts : list Action) :
  run ":8083" (Main two_nodes :: Main two_nodes :: acts) initial
  = ({| pause := false; m := ∅; pc := Crashed |},
     [EvLog LInfo "Collect and aggregate nodes health";
      EvList;
      EvPost "http://10.0.0.1:8083/v1/health/";
      EvPost "http://10.0.0.1:8083/v1/nodehealth/";
      EvLog LWarning
        "Error in getting /v1/nodehealth/ HTTP response, skipping node 10.0.0.1
"]).
Proof.
  change (Main two_nodes :: Main two_nodes :: acts)
    with ([Main two_nodes; Main two_nodes] ++ acts).
  rewrite run_app.
  replace (run ":8083" [Main two_nodes; Main two_nodes] initial)
    with ({| pause := false; m := ∅; pc := Crashed |},
          [EvLog LInfo "Collect and aggregate nodes health";
           EvList;
           EvPost "http://10.0.0.1:8083/v1/health/";
           EvPost "http://10.0.0.1:8083/v1/nodehealth/";
           EvLog LWarning
             "Error in getting /v1/nodehealth/ HTTP response, skipping node 10.0.0.1
"]) by (vm_compute; reflexivity).
  rewrite run_Crashed by done. by rewrite app_nil_r.
Qed.

(** The same cluster with a first node that only fails to decode: the
    cycle visits the second node and returns to the head of the loop. *)
Example decode_error_is_contained :
  let w := {| listNodes := inr [node1; node2];
              nodeEnv := λ node,
                if bool_decide (ID node = "node-1")
                then {| probe := ProbeResponse (mkResponse 200);
                        fetch := FetchUnmarshalErr "unexpected end of JSON input";
                        toggleErr := None |}
                else answers [cpu_ok] |} in
  let '(s, out) := run ":8083" [Main w; Main w; Main w; Main w] initial in
  pc s = LoopHead
  ∧ m s = {[ "node-2" := [cpu_ok] ]}
  ∧ toggleCalls out = [("node-2", true)].
Proof. vm_compute. repeat split; reflexivity. Qed.

(** ** Pausing *)



Lemma step_Signal detectorPort s :
  pc s ≠ Crashed →
  fst (step detectorPort Signal s)
  = {| pause := negb (pause s); m := m s; pc := pc s |}.
Proof.
  intros Hpc. unfold step.
  destruct (pc s) eqn:E; simpl; rewrite ?E; done.
Qed.






Example pause_and_resume :
  let '(s, out) :=
    run ":8083" [Signal; Main one_node; Main one_node; Signal;
                 Main one_node; Main one_node; Main one_node] initial in
  pause s = false ∧ pc s = LoopHead
  ∧ filter (λ ev, isIO ev = true) out
    = [EvList;
       EvPost "http://10.0.0.1:8083/v1/health/";
       EvPost "http://10.0.0.1:8083/v1/nodehealth/";
       EvToggle "node-1" true].
Proof. vm_compute. repeat split; reflexivity. Qed.

(** * Further properties of the code *)

(** ** The lookup of lines 170-173 *)

(** The keys of the lookup are the Types of the sequence; every key leads
    to an entry of the sequence that has this key as its Type; and the
    lookup has no more keys than the sequence has entries.  In particular
    the lookup of the empty sequence is empty. *)
Theorem buildPrevious_keys_are_the_types (nodeHealth : list HealthCheck) :
  dom (buildPrevious nodeHealth) = list_to_set (Type_ <$> nodeHealth)
  ∧ (∀ t p, buildPrevious nodeHealth !! t = Some p →
            p ∈ nodeHealth ∧ Type_ p = t)
  ∧ (size (buildPrevious nodeHealth) ≤ length nodeHealth)%nat.
Proof.
  split; [|split].
  - apply set_eq. intros t. rewrite elem_of_dom, elem_of_list_to_set.
    rewrite <- not_eq_None_Some, buildPrevious_None.
    split; [apply dec_stable | tauto].
  - intros t p. apply buildPrevious_Some.
  - induction nodeHealth as [|nh l IH] using rev_ind; [done|].
    rewrite buildPrevious_snoc, length_app. simpl.
    destruct (buildPrevious l !! Type_ nh) as [q|] eqn:E.
    + rewrite map_size_insert_Some by done. lia.
    + rewrite map_size_insert_None by done. lia.
Qed.

Lemma buildPrevious_keys_are_the_types_witness :
  mem_ok ∈ [mem_bad; cpu_ok; mem_ok] ∧ Type_ mem_ok = "MemoryUnderPressure".
Proof.
  apply (proj1 (proj2 (buildPrevious_keys_are_the_types
                         [mem_bad; cpu_ok; mem_ok]))).
  vm_compute. reflexivity.
Defined.

(** ** The diff loop over a concatenation *)

Lemma diffStep_logged nodeAddress previous st (c : HealthCheck) :
  logged (diffStep nodeAddress previous st c)
  = logged st
    ++ logged (diffStep nodeAddress previous
                 {| nodeHealthy := true; stateChanged := false; logged := [] |}
                 c).
Proof.
  unfold diffStep.
  destruct (isBad (Result c)), (previous !! Type_ c) as [prev|];
    try case_bool_decide; simpl; by rewrite ?app_nil_r.
Qed.

Lemma foldl_diffStep_logged nodeAddress previous (current : list HealthCheck) st :
  logged (foldl (diffStep nodeAddress previous) st current)
  = logged st ++ logged (diff nodeAddress previous current).
Proof.
  unfold diff. revert st.
  induction current as [|c l IH]; intros st.
  - simpl. by rewrite app_nil_r.
  - cbn [foldl].
    rewrite (IH (diffStep nodeAddress previous st c)).
    rewrite (IH (diffStep nodeAddress previous
                   {| nodeHealthy := true; stateChanged := false;
                      logged := [] |} c)).
    rewrite diffStep_logged. by rewrite app_assoc.
Qed.

(** The diff of a snapshot made of two parts is put together from the
    diffs of the parts: the verdict is healthy when both verdicts are, the
    state has changed when it has for one part, and the warnings are those
    of the first part followed by those of the second.  So entries added
    to a snapshot never turn an unhealthy verdict healthy, nor take a
    state change back. *)
Theorem diff_of_concatenation
    (nodeAddress : string) (previous : gmap string HealthCheck)
    (current1 current2 : list HealthCheck) :
  nodeHealthy (diff nodeAddress previous (current1 ++ current2))
  = nodeHealthy (diff nodeAddress previous current1)
    && nodeHealthy (diff nodeAddress previous current2)
  ∧ stateChanged (diff nodeAddress previous (current1 ++ current2))
    = stateChanged (diff nodeAddress previous current1)
      || stateChanged (diff nodeAddress previous current2)
  ∧ logged (diff nodeAddress previous (current1 ++ current2))
    = logged (diff nodeAddress previous current1)
      ++ logged (diff nodeAddress previous current2).
Proof.
  split; [|split].
  - rewrite !diff_nodeHealthy. apply forallb_app.
  - rewrite !diff_stateChanged. apply existsb_app.
  - unfold diff at 1. rewrite foldl_app. apply foldl_diffStep_logged.
Qed.

Lemma logged_diff nodeAddress previous (current : list HealthCheck) :
  logged (diff nodeAddress previous current)
  = (λ c, EvLog LWarning ("Node " +:+ nodeAddress +:+ ": " +:+ Type_ c
                          +:+ " is " +:+ Result c +:+ "
"))
    <$> filter (λ c, isBad (Result c) = true) current.
Proof.
  induction current as [|c l IH] using rev_ind; [done|].
  unfold diff. rewrite foldl_app, filter_app, fmap_app. simpl.
  fold (diff nodeAddress previous l). rewrite <- IH.
  rewrite filter_cons, filter_nil. unfold diffStep.
  destruct (isBad (Result c)) eqn:Hb.
  - rewrite decide_True by done.
    destruct (previous !! Type_ c) as [prev|]; try case_bool_decide; done.
  - rewrite decide_False by congruence. rewrite app_nil_r.
    destruct (previous !! Type_ c) as [prev|]; try case_bool_decide; done.
Qed.

(** The loop logs one warning for each bad entry of the snapshot, in the
    order of the snapshot, with the address of the node and the Type and
    Result of the entry; it logs nothing for the other entries, whatever
    the previous sequence was. *)
Theorem diff_logs_one_warning_per_bad_entry
    (nodeAddress : string) (previous : gmap string HealthCheck)
    (current : list HealthCheck) :
  logged (diff nodeAddress previous current)
  = (λ c, EvLog LWarning ("Node " +:+ nodeAddress +:+ ": " +:+ Type_ c
                          +:+ " is " +:+ Result c +:+ "
"))
    <$> filter (λ c, isBad (Result c) = true) current.
Proof. apply logged_diff. Qed.

(** ** The calls of one visit *)

Lemma ioOf_app out1 out2 : ioOf (out1 ++ out2) = ioOf out1 ++ ioOf out2.
Proof. unfold ioOf. apply filter_app. Qed.

Lemma filter_logged (P : Event → bool) nodeAddress previous
    (current : list HealthCheck) :
  (∀ lvl msg, P (EvLog lvl msg) = false) →
  filter (λ ev, P ev = true) (logged (diff nodeAddress previous current)) = [].
Proof.
  intros HP. rewrite logged_diff.
  induction (filter _ current) as [|c l IH]; [done|].
  rewrite fmap_cons, filter_cons_False; [exact IH | rewrite HP; congruence].
Qed.

Lemma ioOf_logged nodeAddress previous (current : list HealthCheck) :
  ioOf (logged (diff nodeAddress previous current)) = [].
Proof. by apply filter_logged. Qed.

Lemma ioOf_toggleNodeEligibility err nodeID nodeAddress eligible :
  ioOf (toggleNodeEligibility err nodeID nodeAddress eligible)
  = [EvToggle nodeID eligible].
Proof. by destruct err. Qed.

Lemma toggleCalls_ioOf out : toggleCalls (ioOf out) = toggleCalls out.
Proof.
  unfold toggleCalls, ioOf. induction out as [|ev out IH]; [done|].
  destruct ev;
    (rewrite filter_cons_True by done)
    || (rewrite filter_cons_False by (simpl; congruence));
    simpl; first [exact IH | apply (f_equal (cons _)); exact IH].
Qed.

(** The trace of a visit whose probe answers 200 and whose snapshot
    decodes. *)
Lemma processNode_decoded_out detectorPort node e
    (m : gmap string (list HealthCheck)) resp current :
  probe e = ProbeResponse resp → StatusCode resp = 200%Z →
  fetch e = FetchDecoded current →
  processNode detectorPort node e m
  = Continue (<[ID node := current]> m)
      (EvPost (healthURL detectorPort node)
       :: EvPost (nodehealthURL detectorPort node)
       :: logged (diff (Address node)
                       (buildPrevious (default [] (m !! ID node))) current)
       ++ (if bool_decide (default [] (m !! ID node) = [])
              || stateChanged (diff (Address node)
                   (buildPrevious (default [] (m !! ID node))) current)
           then toggleNodeEligibility (toggleErr e) (ID node) (Address node)
                  (nodeHealthy (diff (Address node)
                     (buildPrevious (default [] (m !! ID node))) current))
           else [])).
Proof.
  intros Hp Hs Hf.
  unfold processNode, isNpdServerActive, fetchAndDecide, decide_.
  rewrite Hp, Hf, Hs. simpl.
  rewrite (bool_decide_ext _ (default [] (m !! ID node) = []))
    by apply buildPrevious_size_0.
  unfold healthURL, nodehealthURL.
  by destruct (nodeHealthy _).
Qed.

(** The calls of a visit, case by case. *)
Lemma processNode_io detectorPort node e (m : gmap string (list HealthCheck)) :
  let h := EvPost (healthURL detectorPort node) in
  let nh := EvPost (nodehealthURL detectorPort node) in
  let io := ioOf (events (processNode detectorPort node e m)) in
  (io = [] ∧ ∃ err, probe e = ProbeNewRequestErr err)
  ∨ (io = [h] ∧ ∃ err, probe e = ProbeDoErr err)
  ∨ (io = [h; EvToggle (ID node) false]
     ∧ ∃ resp, probe e = ProbeResponse resp ∧ StatusCode resp ≠ 200%Z)
  ∨ (∃ resp, probe e = ProbeResponse resp ∧ StatusCode resp = 200%Z
     ∧ ((io = [h] ∧ ∃ err, fetch e = FetchNewRequestErr err)
        ∨ (io = [h; nh] ∧ ∀ current, fetch e ≠ FetchDecoded current)
        ∨ (∃ current, fetch e = FetchDecoded current
           ∧ (io = [h; nh] ∨ ∃ b, io = [h; nh; EvToggle (ID node) b])))).
Proof.
  intros h nh io. subst io h nh.
  destruct (probe e) as [err|err|resp] eqn:Hp.
  - left. unfold processNode, isNpdServerActive. rewrite Hp. simpl. eauto.
  - right. left. unfold processNode, isNpdServerActive. rewrite Hp. simpl. eauto.
  - destruct (decide (StatusCode resp = 200%Z)) as [Hs|Hs].
    + do 3 right. exists resp. do 2 (split; [done|]).
      destruct (fetch e) as [err|r err|err|err|current] eqn:Hf.
      * left. unfold processNode, isNpdServerActive, fetchAndDecide.
        rewrite Hp, Hf, Hs. simpl. eauto.
      * right. left. unfold processNode, isNpdServerActive, fetchAndDecide.
        rewrite Hp, Hf, Hs. simpl. by destruct r.
      * right. left. unfold processNode, isNpdServerActive, fetchAndDecide.
        rewrite Hp, Hf, Hs. simpl. done.
      * right. left. unfold processNode, isNpdServerActive, fetchAndDecide.
        rewrite Hp, Hf, Hs. simpl. done.
      * do 2 right. exists current. split; [done|].
        rewrite (processNode_decoded_out _ _ _ _ resp current) by done.
        cbn [events].
        change (?a :: ?b :: ?l) with ([a; b] ++ l).
        rewrite !ioOf_app, ioOf_logged.
        destruct (_ || _).
        -- right. rewrite ioOf_toggleNodeEligibility. eauto.
        -- by left.
    + right. right. left. unfold processNode, isNpdServerActive.
      rewrite Hp, bool_decide_eq_true_2 by done.
      destruct (toggleErr e); simpl; eauto.
Qed.

Lemma append_inj_l (s a b : string) : s +:+ a = s +:+ b → a = b.
Proof. induction s as [|ch s IH]; simpl; [done|]. intros [= H]. auto. Qed.

Lemma healthURL_nodehealthURL detectorPort node :
  healthURL detectorPort node ≠ nodehealthURL detectorPort node.
Proof. unfold healthURL, nodehealthURL. by intros H%append_inj_l. Qed.

(** What a visit does to the stored histories. *)
Lemma processNode_history detectorPort node e
    (m m' : gmap string (list HealthCheck)) out :
  processNode detectorPort node e m = Continue m' out →
  m' = m
  ∨ ∃ resp current,
      probe e = ProbeResponse resp ∧ StatusCode resp = 200%Z
      ∧ fetch e = FetchDecoded current ∧ m' = <[ID node := current]> m.
Proof.
  intros Hrun.
  destruct (probe e) as [err|err|resp] eqn:Hp.
  - left. unfold processNode, isNpdServerActive in Hrun.
    rewrite Hp in Hrun. simpl in Hrun. congruence.
  - left. unfold processNode, isNpdServerActive in Hrun.
    rewrite Hp in Hrun. simpl in Hrun. congruence.
  - destruct (decide (StatusCode resp = 200%Z)) as [Hs|Hs].
    + destruct (fetch e) as [err|r err|err|err|current] eqn:Hf.
      1-4: left; unfold processNode, isNpdServerActive, fetchAndDecide in Hrun;
           rewrite Hp, Hf, Hs in Hrun; simpl in Hrun;
           try destruct r; congruence.
      right. exists resp, current.
      rewrite (processNode_decoded_out _ _ _ _ resp current) in Hrun by done.
      repeat split; congruence.
    + left. unfold processNode, isNpdServerActive in Hrun.
      rewrite Hp, bool_decide_eq_true_2 in Hrun by done.
      simpl in Hrun. congruence.
Qed.

(** A visit leaves the histories of the other nodes alone, and it writes
    the history of the visited node in one case only: the probe answered
    200 and the snapshot decoded; the history is then that snapshot. *)
Theorem visit_writes_history_only_on_decoded_snapshot
    (detectorPort : string) (node : NodeListStub) (e : NodeEnv)
    (m m' : gmap string (list HealthCheck)) (out : list Event) :
  processNode detectorPort node e m = Continue m' out →
  (∀ other, other ≠ ID node → m' !! other = m !! other)
  ∧ (m' = m
     ∨ ∃ resp current,
         probe e = ProbeResponse resp ∧ StatusCode resp = 200%Z
         ∧ fetch e = FetchDecoded current ∧ m' = <[ID node := current]> m).
Proof.
  intros Hrun.
  pose proof (processNode_history _ _ _ _ _ _ Hrun) as Hcase.
  split; [|done].
  intros other Ho.
  destruct Hcase as [-> | (resp & current & _ & _ & _ & ->)]; [done|].
  by apply lookup_insert_ne.
Qed.

Lemma visit_writes_history_only_on_decoded_snapshot_witness :
  ({[ "node-1" := [cpu_ok] ]} : gmap string (list HealthCheck)) !! "node-2"
  = (∅ : gmap string (list HealthCheck)) !! "node-2".
Proof.
  destruct (visit_writes_history_only_on_decoded_snapshot ":8083" node1
              (answers [cpu_ok]) ∅ {[ "node-1" := [cpu_ok] ]}
              (events (processNode ":8083" node1 (answers [cpu_ok]) ∅)))
    as [Hother _].
  - vm_compute. reflexivity.
  - apply Hother. discriminate.
Defined.

(** A visit makes at most one toggle-eligibility call; the call is for the
    visited node, and it is the last call of the visit. *)
Theorem visit_toggles_at_most_once_and_last
    (detectorPort : string) (node : NodeListStub) (e : NodeEnv)
    (m : gmap string (list HealthCheck)) :
  (length (toggleCalls (events (processNode detectorPort node e m))) ≤ 1)%nat
  ∧ ∀ call,
      call ∈ toggleCalls (events (processNode detectorPort node e m)) →
      call.1 = ID node
      ∧ last (ioOf (events (processNode detectorPort node e m)))
        = Some (EvToggle call.1 call.2).
Proof.
  rewrite <- toggleCalls_ioOf.
  destruct (processNode_io detectorPort node e m)
    as [[-> _] | [[-> _] | [[-> _] | (resp & _ & _ & Hio)]]];
    [| | |destruct Hio as [[-> _] | [[-> _] | (cur & _ & [-> | [b ->]])]]];
    simpl; (split; [lia|]); intros call Hc;
    try (by apply elem_of_nil in Hc);
    apply list_elem_of_singleton in Hc as ->; done.
Qed.

Lemma visit_toggles_at_most_once_and_last_witness :
  ("node-1", false).1 = ID node1
  ∧ last (ioOf (events (processNode ":8083" node1 (answers_status 503) ∅)))
    = Some (EvToggle ("node-1", false).1 ("node-1", false).2).
Proof.
  apply (visit_toggles_at_most_once_and_last ":8083" node1
           (answers_status 503) ∅).
  vm_compute. apply list_elem_of_here.
Defined.

Lemma filter_isPost_ioOf out : filter (λ ev, isPost ev = true) (ioOf out)
                               = filter (λ ev, isPost ev = true) out.
Proof.
  unfold ioOf. rewrite list_filter_filter. apply list_filter_iff.
  intros [] ; simpl; naive_solver.
Qed.

(** A visit sends at most two requests to the node; it requests the
    snapshot only after the probe has answered 200; and it makes no
    toggle-eligibility call without having sent the probe. *)
Theorem visit_probes_before_anything_else
    (detectorPort : string) (node : NodeListStub) (e : NodeEnv)
    (m : gmap string (list HealthCheck)) :
  (length (filter (λ ev, isPost ev = true)
                  (events (processNode detectorPort node e m))) ≤ 2)%nat
  ∧ (EvPost (nodehealthURL detectorPort node)
       ∈ events (processNode detectorPort node e m) →
     ∃ resp, probe e = ProbeResponse resp ∧ StatusCode resp = 200%Z)
  ∧ (toggleCalls (events (processNode detectorPort node e m)) ≠ [] →
     head (ioOf (events (processNode detectorPort node e m)))
     = Some (EvPost (healthURL detectorPort node))).
Proof.
  rewrite <- filter_isPost_ioOf, <- toggleCalls_ioOf.
  assert (∀ url, EvPost url ∈ events (processNode detectorPort node e m)
                 → EvPost url ∈ ioOf (events (processNode detectorPort node e m)))
    as Hin by (intros url Hu; by apply list_elem_of_filter).
  pose proof (healthURL_nodehealthURL detectorPort node) as Hne.
  destruct (processNode_io detectorPort node e m)
    as [[Hio _] | [[Hio _] | [[Hio _] | (resp & Hp & Hs & Hio)]]];
    [| | |destruct Hio as [[Hio _] | [[Hio _] | (cur & _ & [Hio | [b Hio]])]]];
    rewrite Hio in *; simpl; (split; [lia|]); split;
    try (intros _; by eauto); try done;
    intros H%Hin; set_solver.
Qed.

Lemma visit_probes_before_anything_else_witness :
  ∃ resp, probe (answers [cpu_ok]) = ProbeResponse resp
          ∧ StatusCode resp = 200%Z.
Proof.
  apply (visit_probes_before_anything_else ":8083" node1 (answers [cpu_ok]) ∅).
  vm_compute. apply list_elem_of_further, list_elem_of_here.
Defined.

(** ** A toggle call that fails *)

(** Whether the orchestrator accepts the toggle-eligibility call or not
    makes no difference to the visit beyond one warning: the stored
    histories and the calls made are the same.  The next visit therefore
    decides as if the call had succeeded; a failed call is not made
    again. *)
Theorem toggle_failure_is_only_logged
    (detectorPort : string) (node : NodeListStub) (e : NodeEnv)
    (m : gmap string (list HealthCheck)) (tErr : option error) :
  match processNode detectorPort node (withToggleErr tErr e) m,
        processNode detectorPort node (withToggleErr None e) m with
  | Continue m1 out1, Continue m2 out2 => m1 = m2 ∧ ioOf out1 = ioOf out2
  | Panic out1, Panic out2 => out1 = out2
  | _, _ => False
  end.
Proof.
  destruct (probe e) as [err|err|resp] eqn:Hp.
  - unfold processNode, isNpdServerActive. simpl. by rewrite Hp.
  - unfold processNode, isNpdServerActive. simpl. by rewrite Hp.
  - destruct (decide (StatusCode resp = 200%Z)) as [Hs|Hs].
    + destruct (fetch e) as [err|r err|err|err|current] eqn:Hf.
      1-4: unfold processNode, isNpdServerActive, fetchAndDecide; simpl;
           rewrite Hp, Hf, Hs; simpl; try destruct r; done.
      rewrite !(processNode_decoded_out _ _ _ _ resp current) by done.
      split; [done|].
      change (?a :: ?b :: ?l) with ([a; b] ++ l).
      rewrite !ioOf_app. do 2 f_equal.
      destruct (_ || _); [|done].
      by rewrite !ioOf_toggleNodeEligibility.
    + unfold processNode, isNpdServerActive. simpl.
      rewrite Hp, bool_decide_eq_true_2 by done.
      split; [done|]. by destruct tErr.
Qed.

(** ** Sequences of visits *)

(** With one entry per Type, entries of one Type are one entry. *)
Lemma NoDup_Type_eq (l : list HealthCheck) c p :
  NoDup (Type_ <$> l) → c ∈ l → p ∈ l → Type_ p = Type_ c → p = c.
Proof.
  intros Hnd Hc Hp Ht.
  pose proof (buildPrevious_NoDup l c Hnd Hc) as H1.
  pose proof (buildPrevious_NoDup l p Hnd Hp) as H2.
  rewrite Ht in H2. congruence.
Qed.

(** A detector that keeps answering with the same snapshot, of at least one
    entry and one entry per Type, is toggled by the first visit at most:
    the second visit makes no toggle-eligibility call and leaves the stored
    histories as the first visit left them. *)
Theorem steady_snapshot_is_not_toggled_again
    (detectorPort : string) (node : NodeListStub) (e : NodeEnv)
    (m : gmap string (list HealthCheck)) (resp : Response)
    (current : list HealthCheck) :
  probe e = ProbeResponse resp → StatusCode resp = 200%Z →
  fetch e = FetchDecoded current →
  current ≠ [] → NoDup (Type_ <$> current) →
  ∃ m1 out1 out2,
    processNode detectorPort node e m = Continue m1 out1
    ∧ processNode detectorPort node e m1 = Continue m1 out2
    ∧ toggleCalls out2 = [].
Proof.
  intros Hp Hs Hf Hne Hnd.
  destruct (processNode_decoded detectorPort node e m resp current Hp Hs Hf)
    as (out1 & Hrun1 & _).
  destruct (processNode_decoded detectorPort node e
              (<[ID node := current]> m) resp current Hp Hs Hf)
    as (out2 & Hrun2 & Ht).
  rewrite insert_insert_eq in Hrun2.
  rewrite lookup_insert_eq in Ht. simpl in Ht.
  exists (<[ID node := current]> m), out1, out2.
  split; [done|]. split; [done|].
  rewrite Ht, stable_results_stateChanged.
  - by rewrite bool_decide_eq_false_2.
  - intros c p Hc Hpin Hty. f_equal. by apply (NoDup_Type_eq current).
Qed.

Lemma steady_snapshot_is_not_toggled_again_witness :
  ∃ m1 out1 out2,
    processNode ":8083" node1 (answers [cpu_ok; mem_bad]) ∅ = Continue m1 out1
    ∧ processNode ":8083" node1 (answers [cpu_ok; mem_bad]) m1
      = Continue m1 out2
    ∧ toggleCalls out2 = [].
Proof.
  apply (steady_snapshot_is_not_toggled_again ":8083" node1
           (answers [cpu_ok; mem_bad]) ∅ (mkResponse 200) [cpu_ok; mem_bad]).
  - reflexivity.
  - reflexivity.
  - reflexivity.
  - discriminate.
  - simpl. apply NoDup_cons. split.
    + intros [= ]%list_elem_of_singleton.
    + apply NoDup_singleton.
Defined.

(** Without the condition on the Types the same snapshot is toggled at
    every visit: of two entries of one Type with different Results, the
    first one differs from what the lookup has kept of the last visit. *)
Example repeated_type_is_toggled_at_every_visit :
  ∃ m1 out1 out2,
    processNode ":8083" node1 (answers [mem_bad; mem_ok]) ∅ = Continue m1 out1
    ∧ processNode ":8083" node1 (answers [mem_bad; mem_ok]) m1
      = Continue m1 out2
    ∧ toggleCalls out2 = [("node-1", false)].
Proof. do 3 eexists. repeat split; vm_compute; reflexivity. Qed.

(** A node whose probe answers with a status other than 200 is toggled
    ineligible with its history kept.  When it then answers 200 with the
    Results its history has, no call is made: it is not toggled back to
    eligible, whatever the verdict. *)
Theorem recovered_node_is_left_ineligible
    (detectorPort : string) (node : NodeListStub) (down up : NodeEnv)
    (m : gmap string (list HealthCheck)) (resp_down resp_up : Response)
    (current : list HealthCheck) :
  probe down = ProbeResponse resp_down → StatusCode resp_down ≠ 200%Z →
  probe up = ProbeResponse resp_up → StatusCode resp_up = 200%Z →
  fetch up = FetchDecoded current →
  default [] (m !! ID node) ≠ [] →
  (∀ c p, c ∈ current → p ∈ default [] (m !! ID node) →
          Type_ p = Type_ c → Result p = Result c) →
  ∃ out1 m2 out2,
    processNode detectorPort node down m = Continue m out1
    ∧ processNode detectorPort node up m = Continue m2 out2
    ∧ toggleCalls (out1 ++ out2) = [(ID node, false)].
Proof.
  intros Hpd Hsd Hpu Hsu Hfu Hne Hsame.
  destruct (processNode_decoded detectorPort node up m resp_up current
              Hpu Hsu Hfu) as (out2 & Hrun2 & Ht).
  rewrite stable_results_stateChanged, bool_decide_eq_false_2 in Ht by done.
  exists ([EvPost (healthURL detectorPort node);
           EvLog LWarning ("Node " +:+ Address node
                           +:+ " is unhealthy, marking it as ineligible.")]
          ++ toggleNodeEligibility (toggleErr down) (ID node) (Address node)
               false),
         (<[ID node := current]> m), out2.
  split; [|split; [done|]].
  - unfold processNode, isNpdServerActive.
    rewrite Hpd, bool_decide_eq_true_2 by done. reflexivity.
  - rewrite !toggleCalls_app, Ht, toggleCalls_toggleNodeEligibility. done.
Qed.

Lemma recovered_node_is_left_ineligible_witness :
  ∃ out1 m2 out2,
    processNode ":8083" node1 (answers_status 503) {[ "node-1" := [cpu_ok] ]}
    = Continue {[ "node-1" := [cpu_ok] ]} out1
    ∧ processNode ":8083" node1 (answers [cpu_ok]) {[ "node-1" := [cpu_ok] ]}
      = Continue m2 out2
    ∧ toggleCalls (out1 ++ out2) = [("node-1", false)].
Proof.
  apply (recovered_node_is_left_ineligible ":8083" node1
           (answers_status 503) (answers [cpu_ok])
           {[ "node-1" := [cpu_ok] ]} (mkResponse 503) (mkResponse 200)
           [cpu_ok]).
  - reflexivity.
  - simpl. lia.
  - reflexivity.
  - reflexivity.
  - reflexivity.
  - vm_compute. discriminate.
  - intros c p ->%list_elem_of_singleton Hp _.
    vm_compute in Hp. by apply list_elem_of_singleton in Hp as ->.
Defined.

(** A visit that decodes the empty snapshot stores the empty history, and
    the next successful visit finds no previous entry: whatever it decodes,
    it makes one toggle-eligibility call, for eligible exactly when none of
    the entries is bad. *)
Theorem empty_snapshot_makes_next_visit_toggle
    (detectorPort : string) (node : NodeListStub) (e1 e2 : NodeEnv)
    (m : gmap string (list HealthCheck)) (resp1 resp2 : Response)
    (current : list HealthCheck) :
  probe e1 = ProbeResponse resp1 → StatusCode resp1 = 200%Z →
  fetch e1 = FetchDecoded [] →
  probe e2 = ProbeResponse resp2 → StatusCode resp2 = 200%Z →
  fetch e2 = FetchDecoded current →
  ∃ m1 out1 m2 out2,
    processNode detectorPort node e1 m = Continue m1 out1
    ∧ processNode detectorPort node e2 m1 = Continue m2 out2
    ∧ toggleCalls out2
      = [(ID node, forallb (λ c, negb (isBad (Result c))) current)].
Proof.
  intros Hp1 Hs1 Hf1 Hp2 Hs2 Hf2.
  destruct (processNode_decoded detectorPort node e1 m resp1 [] Hp1 Hs1 Hf1)
    as (out1 & Hrun1 & _).
  destruct (processNode_decoded detectorPort node e2
              (<[ID node := []]> m) resp2 current Hp2 Hs2 Hf2)
    as (out2 & Hrun2 & Ht).
  rewrite lookup_insert_eq in Ht. simpl in Ht.
  rewrite diff_nodeHealthy in Ht.
  by exists (<[ID node := []]> m), out1, (<[ID node := current]> (<[ID node := []]> m)), out2.
Qed.

Lemma empty_snapshot_makes_next_visit_toggle_witness :
  ∃ m1 out1 m2 out2,
    processNode ":8083" node1 (answers []) {[ "node-1" := [cpu_ok] ]}
    = Continue m1 out1
    ∧ processNode ":8083" node1 (answers [cpu_ok]) m1 = Continue m2 out2
    ∧ toggleCalls out2
      = [(ID node1, forallb (λ c, negb (isBad (Result c))) [cpu_ok])].
Proof.
  apply (empty_snapshot_makes_next_visit_toggle ":8083" node1
           (answers []) (answers [cpu_ok]) {[ "node-1" := [cpu_ok] ]}
           (mkResponse 200) (mkResponse 200) [cpu_ok]); reflexivity.
Defined.

(** ** Cycles *)

(** A visit neither lists the nodes nor sleeps. *)
Lemma processNode_only_posts_toggles_logs (P : Event → bool)
    detectorPort node e (m : gmap string (list HealthCheck)) :
  (∀ lvl msg, P (EvLog lvl msg) = false) →
  (∀ url, P (EvPost url) = false) →
  (∀ nodeID eligible, P (EvToggle nodeID eligible) = false) →
  filter (λ ev, P ev = true) (events (processNode detectorPort node e m)) = [].
Proof.
  intros Hlog Hpost Htoggle.
  assert (∀ out, Forall (λ ev, P ev = false) out →
                 filter (λ ev, P ev = true) out = []) as Hnone.
  { induction 1 as [|ev out Hev _ IH]; [done|].
    rewrite filter_cons_False; [done | congruence]. }
  assert (∀ err nodeID nodeAddress eligible,
            Forall (λ ev, P ev = false)
              (toggleNodeEligibility err nodeID nodeAddress eligible))
    as Htog by (intros [] ???; repeat constructor; auto).
  destruct (probe e) as [err|err|resp] eqn:Hp.
  - unfold processNode, isNpdServerActive. rewrite Hp. simpl.
    apply Hnone. repeat constructor; auto.
  - unfold processNode, isNpdServerActive. rewrite Hp. simpl.
    apply Hnone. repeat constructor; auto.
  - destruct (decide (StatusCode resp = 200%Z)) as [Hs|Hs].
    + destruct (fetch e) as [err|r err|err|err|current] eqn:Hf.
      1-4: unfold processNode, isNpdServerActive, fetchAndDecide, skipLog;
           rewrite Hp, Hf, Hs; simpl; try destruct r; simpl;
           apply Hnone; repeat constructor; auto.
      rewrite (processNode_decoded_out _ _ _ _ resp current) by done.
      cbn [events].
      rewrite !filter_cons_False by (rewrite Hpost; congruence).
      rewrite filter_app, filter_logged by done.
      destruct (_ || _); [|done]. by apply Hnone.
    + unfold processNode, isNpdServerActive.
      rewrite Hp, bool_decide_eq_true_2 by done. cbn [events negb].
      apply Hnone.
      apply Forall_app. split; [repeat constructor; auto|].
      apply Forall_app. split; [repeat constructor; auto | apply Htog].
Qed.

Lemma processNode_counts detectorPort node e
    (m : gmap string (list HealthCheck)) :
  (length (toggleCalls (events (processNode detectorPort node e m))) ≤ 1)%nat
  ∧ (length (filter (λ ev, isPost ev = true)
                    (events (processNode detectorPort node e m))) ≤ 2)%nat.
Proof.
  rewrite <- filter_isPost_ioOf, <- toggleCalls_ioOf.
  destruct (processNode_io detectorPort node e m)
    as [[-> _] | [[-> _] | [[-> _] | (resp & _ & _ & Hio)]]];
    [| | |destruct Hio as [[-> _] | [[-> _] | (cur & _ & [-> | [b ->]])]]];
    simpl; lia.
Qed.

Lemma processNode_Continue detectorPort node e
    (m : gmap string (list HealthCheck)) :
  (∀ err, fetch e ≠ FetchDoErr None err) →
  ∃ m' out, processNode detectorPort node e m = Continue m' out.
Proof.
  intros Hf.
  destruct (processNode detectorPort node e m) as [m' out|out] eqn:Hrun;
    [eauto|].
  apply processNode_Panic in Hrun as (resp & err & _ & _ & Hfe).
  by destruct (Hf err).
Qed.

Lemma processNode_dom detectorPort node e
    (m m' : gmap string (list HealthCheck)) out :
  processNode detectorPort node e m = Continue m' out →
  dom m ⊆ dom m' ∧ dom m' ⊆ dom m ∪ {[ID node]}.
Proof.
  intros [-> | (resp & current & _ & _ & _ & ->)]%processNode_history.
  - set_solver.
  - rewrite dom_insert_L. set_solver.
Qed.

(** The rest of a cycle: from inside the range loop, whatever the flag. *)
Lemma run_InCycle detectorPort w nodes :
  (∀ node err, node ∈ nodes → fetch (nodeEnv w node) ≠ FetchDoErr None err) →
  ∀ p h, ∃ h' out,
    run detectorPort (repeat (Main w) (length nodes + 1))
        {| pause := p; m := h; pc := InCycle nodes |}
    = ({| pause := p; m := h'; pc := LoopHead |}, out)
    ∧ (length (toggleCalls out) ≤ length nodes)%nat
    ∧ (length (filter (λ ev, isPost ev = true) out) ≤ 2 * length nodes)%nat
    ∧ filter (λ ev, isList ev = true) out = []
    ∧ filter (λ ev, isSleep ev = true) out = [EvSleep]
    ∧ last out = Some EvSleep.
Proof.
  induction nodes as [|node nodes IH]; intros Hok p h.
  - exists h, [EvSleep]. by repeat split.
  - destruct (processNode_Continue detectorPort node (nodeEnv w node) h)
      as (h1 & out1 & Hrun1).
    { intros err. apply Hok. set_solver. }
    destruct (IH (λ n err Hn, Hok n err (list_elem_of_further _ _ _ Hn)) p h1)
      as (h' & out & Hrun & Ht & Hpo & Hl & Hsl & Hlast).
    exists h', (out1 ++ out).
    split.
    { cbn [length Nat.add repeat run]. unfold step at 1. cbn [pc].
      unfold mainStep at 1. cbn [pc m pause]. rewrite Hrun1.
      by rewrite Hrun. }
    pose proof (processNode_counts detectorPort node (nodeEnv w node) h)
      as [Hc1 Hc2].
    rewrite Hrun1 in Hc1, Hc2. cbn [events] in Hc1, Hc2.
    pose proof (processNode_only_posts_toggles_logs isList detectorPort node
                  (nodeEnv w node) h) as Hq1.
    pose proof (processNode_only_posts_toggles_logs isSleep detectorPort node
                  (nodeEnv w node) h) as Hq2.
    rewrite Hrun1 in Hq1, Hq2. cbn [events] in Hq1, Hq2.
    rewrite toggleCalls_app, !filter_app, !length_app, Hq1, Hq2, Hl, Hsl
      by done.
    repeat split; try done; try (cbn [length]; lia).
    by rewrite last_app, Hlast.
Qed.

(** A cycle that starts at the head of the loop with the flag down, and in
    which no snapshot request comes back without a response, lists the
    nodes once, visits every node, sleeps once at its end and is back at
    the head of the loop after one step per node and two more.  It makes at
    most one toggle-eligibility call and two requests per listed node, and
    it removes no node from the stored histories. *)
Theorem cycle_returns_to_loop_head
    (detectorPort : string) (w : World) (s : State)
    (nodes : list NodeListStub) :
  pc s = LoopHead → pause s = false → listNodes w = inr nodes →
  (∀ node err, node ∈ nodes → fetch (nodeEnv w node) ≠ FetchDoErr None err) →
  ∃ s' out,
    run detectorPort (repeat (Main w) (length nodes + 2)) s = (s', out)
    ∧ pc s' = LoopHead ∧ pause s' = false
    ∧ (length (toggleCalls out) ≤ length nodes)%nat
    ∧ (length (filter (λ ev, isPost ev = true) out) ≤ 2 * length nodes)%nat
    ∧ filter (λ ev, isList ev = true) out = [EvList]
    ∧ filter (λ ev, isSleep ev = true) out = [EvSleep]
    ∧ last out = Some EvSleep.
Proof.
  intros Hpc Hp Hl Hok.
  destruct (run_InCycle detectorPort w nodes Hok false (m s))
    as (h' & out & Hrun & Ht & Hpo & Hli & Hsl & Hlast).
  exists {| pause := false; m := h'; pc := LoopHead |},
         ([EvLog LInfo "Collect and aggregate nodes health"; EvList] ++ out).
  split.
  { replace (length nodes + 2) with (S (length nodes + 1)) by lia.
    cbn [repeat run]. unfold step at 1. rewrite Hpc.
    unfold mainStep at 1. rewrite Hpc, Hp, Hl. by rewrite Hrun. }
  rewrite toggleCalls_app, !filter_app, last_app, Hlast, Hli, Hsl.
  by repeat split.
Qed.

Lemma cycle_returns_to_loop_head_witness :
  ∃ s' out,
    run ":8083" (repeat (Main two_live_nodes) (length [node1; node2] + 2))
        initial = (s', out)
    ∧ pc s' = LoopHead ∧ pause s' = false
    ∧ (length (toggleCalls out) ≤ length [node1; node2])%nat
    ∧ (length (filter (λ ev, isPost ev = true) out)
       ≤ 2 * length [node1; node2])%nat
    ∧ filter (λ ev, isList ev = true) out = [EvList]
    ∧ filter (λ ev, isSleep ev = true) out = [EvSleep]
    ∧ last out = Some EvSleep.
Proof.
  apply (cycle_returns_to_loop_head ":8083" two_live_nodes initial
           [node1; node2]).
  - reflexivity.
  - reflexivity.
  - reflexivity.
  - intros node err _. unfold two_live_nodes. simpl.
    by destruct (bool_decide (ID node = "node-1")).
Defined.




(** As long as the orchestrator fails to list the nodes, the loop contacts
    no node, makes no toggle-eligibility call and keeps its state; every
    attempt is one call to the orchestrator followed by one sleep. *)
Theorem failing_node_list_touches_nothing
    (detectorPort : string) (ws : list World) (s : State) :
  pc s = LoopHead → pause s = false →
  Forall (λ w, ∃ err, listNodes w = inl err) ws →
  ∃ out,
    run detectorPort (Main <$> ws) s = (s, out)
    ∧ ioOf out = repeat EvList (length ws)
    ∧ filter (λ ev, isSleep ev = true) out = repeat EvSleep (length ws).
Proof.
  intros Hpc Hp Hws. induction Hws as [|w ws [err Hl] _ (out & Hrun & Hio & Hsl)].
  - by exists [].
  - eexists. rewrite fmap_cons. cbn [run]. unfold step at 1. rewrite Hpc.
    unfold mainStep at 1. rewrite Hpc, Hp, Hl, Hrun.
    split; [reflexivity|].
    rewrite ioOf_app, filter_app, Hio, Hsl. by split.
Qed.

Lemma failing_node_list_touches_nothing_witness :
  ∃ out,
    run ":8083" (Main <$> [orchestrator_down; orchestrator_down]) initial
    = (initial, out)
    ∧ ioOf out = repeat EvList (length [orchestrator_down; orchestrator_down])
    ∧ filter (λ ev, isSleep ev = true) out
      = repeat EvSleep (length [orchestrator_down; orchestrator_down]).
Proof.
  apply (failing_node_list_touches_nothing ":8083"
           [orchestrator_down; orchestrator_down] initial).
  - reflexivity.
  - reflexivity.
  - repeat constructor; by exists "Unexpected response code: 500".
Defined.

(** ** Invariants of the runs *)

Lemma fst_run_cons detectorPort a acts s :
  fst (run detectorPort (a :: acts) s)
  = fst (run detectorPort acts (fst (step detectorPort a s))).
Proof.
  simpl. destruct (step detectorPort a s) as [s1 out1]. simpl.
  by destruct (run detectorPort acts s1).
Qed.

Lemma listedIDs_cons a acts :
  listedIDs (a :: acts) = listedIDs [a] ∪ listedIDs acts.
Proof. unfold listedIDs. simpl. set_solver. Qed.

Lemma step_dom detectorPort a s :
  dom (m s) ⊆ dom (m (fst (step detectorPort a s)))
  ∧ dom (m (fst (step detectorPort a s)))
      ∪ pendingIDs (fst (step detectorPort a s))
    ⊆ dom (m s) ∪ pendingIDs s ∪ listedIDs [a].
Proof.
  destruct s as [p h c].
  unfold step, mainStep, flipPause, pendingIDs, listedIDs. simpl.
  destruct c as [|[|node nodes]|], a as [|w]; simpl;
    try (split; set_solver).
  - destruct p; simpl; [split; set_solver|].
    destruct (listNodes w) as [err|nodes]; simpl; split; set_solver.
  - destruct (processNode detectorPort node (nodeEnv w node) h)
      as [h' out|out] eqn:Hrun; simpl; [|split; set_solver].
    apply processNode_dom in Hrun as [H1 H2]. split; set_solver.
Qed.

(** No run removes a node from the stored histories, and the histories of
    a run that starts at the head of the loop hold, besides the nodes they
    held before, only nodes that the orchestrator has listed.  A node that
    leaves the cluster keeps its history for the life of the process. *)
Theorem history_keeps_every_node_and_adds_listed_nodes_only
    (detectorPort : string) (acts : list Action) (s : State) :
  dom (m s) ⊆ dom (m (fst (run detectorPort acts s)))
  ∧ (pc s = LoopHead →
     dom (m (fst (run detectorPort acts s))) ⊆ dom (m s) ∪ listedIDs acts).
Proof.
  assert (dom (m s) ⊆ dom (m (fst (run detectorPort acts s)))
          ∧ dom (m (fst (run detectorPort acts s)))
              ∪ pendingIDs (fst (run detectorPort acts s))
            ⊆ dom (m s) ∪ pendingIDs s ∪ listedIDs acts) as [H1 H2].
  { revert s. induction acts as [|a acts IH]; intros s.
    - simpl. split; set_solver.
    - rewrite fst_run_cons, listedIDs_cons.
      destruct (step_dom detectorPort a s) as [Ha1 Ha2].
      destruct (IH (fst (step detectorPort a s))) as [Hb1 Hb2].
      split; set_solver. }
  split; [done|]. intros Hpc.
  unfold pendingIDs at 2 in H2. rewrite Hpc in H2. set_solver.
Qed.

Lemma history_keeps_every_node_and_adds_listed_nodes_only_witness :
  dom (m (fst (run ":8083" (repeat (Main two_live_nodes) 4) initial)))
  ⊆ dom (m initial) ∪ listedIDs (repeat (Main two_live_nodes) 4).
Proof.
  apply (history_keeps_every_node_and_adds_listed_nodes_only ":8083"
           (repeat (Main two_live_nodes) 4) initial).
  reflexivity.
Defined.

(** A node that the orchestrator lists no more stays in the histories. *)
Example departed_node_keeps_its_history :
  m (fst (run ":8083"
            (repeat (Main two_live_nodes) 4 ++ repeat (Main one_node) 3)
            initial))
  !! "node-2" = Some [cpu_ok].
Proof. vm_compute. reflexivity. Qed.

Lemma mainStep_pause detectorPort w s :
  pause (fst (mainStep detectorPort w s)) = pause s.
Proof.
  unfold mainStep.
  destruct (pc s) as [|[|node nodes]|]; simpl; try done.
  - destruct (pause s) eqn:Hp; simpl; [done|].
    by destruct (listNodes w).
  - by destruct (processNode _ _ _ _).
Qed.

(** Only SIGUSR1 writes the flag: in every run that leaves the process
    alive, whatever the steps of the loop between the signals, the flag at
    the end is the flag at the start, negated once per signal. *)
Theorem flag_follows_the_parity_of_the_signals
    (detectorPort : string) (acts : list Action) (s : State) :
  pc (fst (run detectorPort acts s)) ≠ Crashed →
  pause (fst (run detectorPort acts s))
  = xorb (pause s) (Nat.odd (length (filter (λ a, isSignal a = true) acts))).
Proof.
  revert s. induction acts as [|a acts IH]; intros s Hlive.
  - simpl. by destruct (pause s).
  - rewrite fst_run_cons in *.
    assert (pc s ≠ Crashed) as Hc.
    { intros Hc. apply Hlive. unfold step. rewrite Hc.
      simpl. by rewrite run_Crashed. }
    rewrite IH by done. destruct a as [|w].
    + rewrite filter_cons_True by done.
      rewrite step_Signal by done. cbn [length pause].
      rewrite Nat.odd_succ, <- Nat.negb_odd.
      by destruct (pause s), (Nat.odd _).
    + rewrite filter_cons_False by (simpl; congruence).
      f_equal. unfold step.
      destruct (pc s) eqn:Hpc; try done; apply mainStep_pause.
Qed.

Lemma flag_follows_the_parity_of_the_signals_witness :
  pause (fst (run ":8083"
                [Signal; Main one_node; Signal; Main one_node; Signal]
                initial))
  = xorb (pause initial)
         (Nat.odd (length (filter (λ a, isSignal a = true)
            [Signal; Main one_node; Signal; Main one_node; Signal]))).
Proof.
  apply (flag_follows_the_parity_of_the_signals ":8083"
           [Signal; Main one_node; Signal; Main one_node; Signal] initial).
  vm_compute. discriminate.
Defined.
